(** * gsheets-crud: a shallow embedding of [gsheetsCrud.ts]

    The client class [GSheets] offers four row operations over one sheet of
    a remote spreadsheet ([findRow], [addRow], [updateRow], [deleteRow]) and
    a link rewriting helper ([convertGoogleDriveLink]).  Every operation
    talks to the remote service through [mainInstance]; here the service is
    an explicit parameter and every request that the client sends is
    recorded in a trace, so that both the payloads and their order can be
    stated.

    Conventions of the embedding:
    - JavaScript values are a small tagged union [jsval]; numbers are
      integers ([Z]), strings are sequences of 8-bit code units on which
      case mapping and trimming act as they do on ASCII text;
    - a JavaScript object used as a record ([Record<string, string>]) is an
      association list in the order in which [Object.keys] enumerates it;
      reading a name that the record lacks finds what every object
      inherits, and [undefined] beyond that;
    - an array is a list; reading out of range gives [JUndefined] and
      writing past the end extends the array, as in JavaScript;
    - a thrown exception is the [Err] case of [result]. *)

From Stdlib Require Import ZArith Ascii String DecimalString DecimalPos Lia.
From stdpp Require Import base list sorting strings.

Local Open Scope string_scope.
Local Open Scope list_scope.
Local Open Scope stdpp_scope.

(** ** JavaScript values and string primitives *)

Module Js.

Inductive jsval : Type :=
| JUndefined
| JNull
| JBool (b : bool)
| JNum (n : Z)
| JStr (s : string)
| JNative (member : string).
    (* the built-in function or object that every plain object inherits
       under the name [member], such as [constructor] or [toString] *)

Global Instance jsval_eq_dec : EqDecision jsval.
Proof. solve_decision. Defined.

Global Instance jsval_inhabited : Inhabited jsval := populate JUndefined.

(** [a === b] on the values above. *)
Definition strict_eq (a b : jsval) : bool := bool_decide (a = b).

(** [typeof v === "string"]. *)
Definition is_string (v : jsval) : bool :=
  match v with JStr _ => true | _ => false end.

(** Conversion to boolean, as in [if (v)] and [v || w]. *)
Definition truthy (v : jsval) : bool :=
  match v with
  | JUndefined | JNull => false
  | JBool b => b
  | JNum n => negb (n =? 0)%Z
  | JStr s => negb (String.eqb s "")
  | JNative _ => true
  end.

(** [a || b]. *)
Definition js_or (a b : jsval) : jsval := if truthy a then a else b.

Definition string_of_Z (n : Z) : string := NilZero.string_of_int (Z.to_int n).

(** [String(v)], used when a value serves as a property name. *)
Definition ToString (v : jsval) : string :=
  match v with
  | JUndefined => "undefined"
  | JNull => "null"
  | JBool true => "true"
  | JBool false => "false"
  | JNum n => string_of_Z n
  | JStr s => s
  | JNative "__proto__" => "[object Object]"
  | JNative "constructor" => "function Object() { [native code] }"
  | JNative member => "function " +:+ member +:+ "() { [native code] }"
  end.

(** *** Characters *)

Definition is_lower (c : ascii) : bool :=
  let n := nat_of_ascii c in (97 <=? n)%nat && (n <=? 122)%nat.

Definition is_upper (c : ascii) : bool :=
  let n := nat_of_ascii c in (65 <=? n)%nat && (n <=? 90)%nat.

Definition is_digit (c : ascii) : bool :=
  let n := nat_of_ascii c in (48 <=? n)%nat && (n <=? 57)%nat.

(** [toUpperCase] and [toLowerCase] on one code unit: the letters [a]-[z]
    and [A]-[Z] are mapped and every other code unit is left as it is,
    which is what JavaScript does on ASCII characters. *)
Definition char_toUpperCase (c : ascii) : ascii :=
  if is_lower c then ascii_of_nat (nat_of_ascii c - 32) else c.

Definition char_toLowerCase (c : ascii) : ascii :=
  if is_upper c then ascii_of_nat (nat_of_ascii c + 32) else c.

(** *** Strings *)

Fixpoint toLowerCase (s : string) : string :=
  match s with
  | "" => ""
  | String c r => String (char_toLowerCase c) (toLowerCase r)
  end.

Fixpoint toUpperCase (s : string) : string :=
  match s with
  | "" => ""
  | String c r => String (char_toUpperCase c) (toUpperCase r)
  end.

(** [s.trimStart()] and [s.trimEnd()]: the white space removed is tab,
    line feed, vertical tab, form feed, carriage return and space, the
    white space of ASCII text. *)
Fixpoint trimStart (s : string) : string :=
  match s with
  | "" => ""
  | String c r => if Ascii.is_space c then trimStart r else s
  end.

Definition trimEnd (s : string) : string :=
  String.rev (trimStart (String.rev s)).

(** [s.trim()]. *)
Definition trim (s : string) : string := trimEnd (trimStart s).

(** [s.split(sep)] for a one-character separator: the pieces between the
    separators, so that the empty string splits into one empty piece. *)
Fixpoint split (sep : ascii) (s : string) : list string :=
  match s with
  | "" => [""]
  | String c r =>
      if Ascii.eqb c sep then "" :: split sep r
      else match split sep r with
           | [] => [String c ""]
           | p :: ps => String c p :: ps
           end
  end.

(** *** Objects as records *)

Abbreviation object := (list (string * jsval)) (only parsing).

(** [Object.keys(o)] and [Object.entries(o)]. *)
Definition keys (o : object) : list string := o.*1.
Definition entries (o : object) : list (string * jsval) := o.

(** The names under which a plain object inherits from
    [Object.prototype]. *)
Definition Object_prototype : list string :=
  ["constructor"; "__defineGetter__"; "__defineSetter__"; "hasOwnProperty";
   "__lookupGetter__"; "__lookupSetter__"; "isPrototypeOf";
   "propertyIsEnumerable"; "toString"; "valueOf"; "__proto__";
   "toLocaleString"].

(** What [o[k]] reads when [o] has no property [k] of its own. *)
Definition inherited (k : string) : jsval :=
  if bool_decide (k ∈ Object_prototype) then JNative k else JUndefined.

(** [o[k]]: the property of [o] itself if there is one, otherwise what
    [o] inherits; a property that is absent from both reads as
    [undefined]. *)
Fixpoint obj_get (o : object) (k : string) : jsval :=
  match o with
  | [] => inherited k
  | (k', v) :: o' => if decide (k' = k) then v else obj_get o' k
  end.

(** [o[k] = v]: an existing property keeps its place. *)
Fixpoint obj_set (o : object) (k : string) (v : jsval) : object :=
  match o with
  | [] => [(k, v)]
  | (k', v') :: o' =>
      if decide (k' = k) then (k', v) :: o' else (k', v') :: obj_set o' k v
  end.

(** *** Arrays *)

(** [a[i]]. *)
Definition array_get (a : list jsval) (i : Z) : jsval :=
  if (i <? 0)%Z then JUndefined else default JUndefined (a !! Z.to_nat i).

(** [a[i] = v] for [i >= 0]: inside the array the cell is replaced, past
    the end the array grows and the cells in between read as [undefined]. *)
Definition array_set (a : list jsval) (i : nat) (v : jsval) : list jsval :=
  if decide (i < length a)%nat then <[i:=v]> a
  else a ++ replicate (i - length a) JUndefined ++ [v].

Fixpoint index_of (a : list jsval) (x : jsval) : option nat :=
  match a with
  | [] => None
  | y :: a' => if decide (y = x) then Some 0%nat else S <$> index_of a' x
  end.

(** [a.indexOf(x)]: the first position holding a value [=== x], or -1. *)
Definition indexOf (a : list jsval) (x : jsval) : Z :=
  match index_of a x with
  | Some i => Z.of_nat i
  | None => (-1)%Z
  end.

(** [a.includes(x)]. *)
Definition includes (a : list jsval) (x : jsval) : bool :=
  bool_decide (x ∈ a).

End Js.

Export Js.

(** ** The remote service as the client sees it *)

Module Api.

(** The two shapes of A1 range that the client builds: the whole sheet
    ([range: this.sheetName]) and the row that starts at column A of a given
    position ([`${this.sheetName}!A${rowIndex}`]). *)
Inductive range : Type :=
| SheetRange (sheetName : string)
| RowRange (sheetName : string) (rowIndex : Z).

Global Instance range_eq_dec : EqDecision range.
Proof. solve_decision. Defined.

(** One entry of [resource.data] in a batched value write. *)
Record ValueRange : Type := mkValueRange {
  vr_range : range;
  vr_values : list (list jsval)
}.

(** The [deleteDimension.range] object of a structural delete. *)
Record DimensionRange : Type := mkDimensionRange {
  sheetId : Z;
  dimension : string;
  startIndex : Z;
  endIndex : Z
}.

(** What is sent, as recorded in the trace. *)
Inductive request : Type :=
| values_get (spreadsheetId : string) (rng : range)
| values_update (spreadsheetId : string) (rng : range)
    (valueInputOption : string) (values : list (list jsval))
| values_append (spreadsheetId : string) (rng : range)
    (valueInputOption : string) (values : list (list jsval))
| values_batchUpdate (spreadsheetId : string)
    (valueInputOption : string) (data : list ValueRange)
| spreadsheets_get (spreadsheetId : string)
| spreadsheets_batchUpdate (spreadsheetId : string)
    (requests : list DimensionRange).


(** The promise of a call either resolves or rejects. *)
Inductive reply (R : Type) : Type :=
| Resolved (r : R)
| Rejected (reason : string).
Global Arguments Resolved {R} r.
Global Arguments Rejected {R} reason.

(** The part of each response that the client reads:
    - [values.get]: [response.data.values], absent for a sheet with no cell;
    - [values.update]: nothing;
    - [values.append]: [data.updates.updatedRange];
    - [values.batchUpdate]: [result.data], handed back as it is ([Raw]);
    - [spreadsheets.get]: title and [sheetId] of every entry of [data.sheets];
    - [spreadsheets.batchUpdate]: [data.replies], one entry per reply. *)
Record service (St Raw : Type) : Type := mkService {
  on_values_get : string -> range -> St -> reply (option (list (list jsval))) * St;
  on_values_update :
    string -> range -> string -> list (list jsval) -> St -> reply unit * St;
  on_values_append :
    string -> range -> string -> list (list jsval) -> St -> reply string * St;
  on_values_batchUpdate :
    string -> string -> list ValueRange -> St -> reply Raw * St;
  on_spreadsheets_get : string -> St -> reply (list (string * Z)) * St;
  on_spreadsheets_batchUpdate :
    string -> list DimensionRange -> St -> reply (list unit) * St
}.
Global Arguments on_values_get {St Raw}.
Global Arguments on_values_update {St Raw}.
Global Arguments on_values_append {St Raw}.
Global Arguments on_values_batchUpdate {St Raw}.
Global Arguments on_spreadsheets_get {St Raw}.
Global Arguments on_spreadsheets_batchUpdate {St Raw}.

End Api.

Export Api.

(** ** Exceptions, and the monad of a client method *)

Module Eff.

Inductive operation : Type :=
| FindRow | AddRow | UpdateRow | DeleteRow | GetSheetId.

(** What a method can throw.  [Wrapped op e] is the error built by the
    [catch] clause of a method, whose message is the method's prefix
    followed by the text of the cause [e]. *)
Inductive error : Type :=
| HeaderRowIndex              (* Row index cannot be 1, because it header'. *)
| InvalidKey (key : string)   (* Key "<key>" must start with an uppercase letter. *)
| TypeError                   (* raised by the engine: a property of undefined or null *)
| ServiceError (reason : string)  (* the service call rejected *)
| Wrapped (op : operation) (cause : error).

Inductive result (A : Type) : Type :=
| Ok (a : A)
| Err (e : error).
Global Arguments Ok {A} a.
Global Arguments Err {A} e.

(** A Validation error: one of the two [throw new Error] of the checks, as
    it leaves the method. *)
Definition is_validation (e : error) : bool :=
  match e with
  | Wrapped _ HeaderRowIndex | Wrapped _ (InvalidKey _) => true
  | _ => false
  end.

Definition is_ok {A} (r : result A) : bool :=
  match r with Ok _ => true | Err _ => false end.

Section Monad.
Context {St : Type}.

(** The state of the remote side and the requests sent so far, oldest
    first. *)
Record world : Type := mkWorld { remote : St; trace : list request }.

Definition M (A : Type) : Type := world -> result A * world.

Definition ret {A} (a : A) : M A := fun w => (Ok a, w).

Definition throw {A} (e : error) : M A := fun w => (Err e, w).

Definition bind {A B} (m : M A) (k : A -> M B) : M B :=
  fun w => match m w with
           | (Ok a, w') => k a w'
           | (Err e, w') => (Err e, w')
           end.

Definition lift {A} (r : result A) : M A := fun w => (r, w).

(** [try { m } catch (error) { throw new Error(prefix + error) }]. *)
Definition try_wrap {A} (op : operation) (m : M A) : M A :=
  fun w => match m w with
           | (Ok a, w') => (Ok a, w')
           | (Err e, w') => (Err (Wrapped op e), w')
           end.

(** [await] of a service call: the request is recorded, the service moves,
    and a rejection is thrown. *)
Definition await {R} (rq : request) (f : St -> reply R * St) : M R :=
  fun w =>
    let (r, s') := f (remote w) in
    let w' := {| remote := s'; trace := trace w ++ [rq] |} in
    match r with
    | Resolved x => (Ok x, w')
    | Rejected why => (Err (ServiceError why), w')
    end.

End Monad.
Global Arguments world : clear implicits.
Global Arguments M : clear implicits.

End Eff.

Export Eff.

Notation "'let*' x ':=' m 'in' k" := (bind m (fun x => k))
  (at level 10, x pattern, m at level 100, k at level 200).

(** ** The client: class [GSheets] *)

Module GSheets.

(** The two fields of the instance that the methods read. *)
Record config : Type := mkConfig {
  spreadsheetId : string;
  sheetName : string
}.

(** [findRow(query: number | Record<string, string>)]. *)
Inductive query : Type :=
| QNumber (n : Z)
| QMapping (m : object).

(** [rowIndexes: number[] | number]. *)
Inductive rowIndexes : Type :=
| Single (n : Z)
| Several (l : list Z).

(** One element of the array that [findRow] returns. *)
Record found : Type := mkFound { rowIndex : Z; data : object }.

(** What [addRow] returns. *)
Record added : Type := mkAdded { added_rowIndex : Z; added_rowData : object }.

(** [Array.isArray(rowIndexes) ? rowIndexes : [rowIndexes]]. *)
Definition normalize (r : rowIndexes) : list Z :=
  match r with
  | Single n => [n]
  | Several l => l
  end.

(** [rows[i]] on the value range. *)
Definition rows_get (rows : list (list jsval)) (i : Z) : option (list jsval) :=
  if (i <? 0)%Z then None else rows !! Z.to_nat i.

(** The test [key[0] !== key[0].toUpperCase()] of the three key checks.
    On the empty key [key[0]] is [undefined] and the call of
    [toUpperCase] on it throws. *)
Definition key_is_invalid (key : string) : result bool :=
  match key with
  | "" => Err TypeError
  | String c _ => Ok (negb (Ascii.eqb c (char_toUpperCase c)))
  end.

(** [Object.keys(o).find((key) => key[0] !== key[0].toUpperCase())]. *)
Fixpoint invalidKey (ks : list string) : result (option string) :=
  match ks with
  | [] => Ok None
  | key :: ks' =>
      match key_is_invalid key with
      | Err e => Err e
      | Ok true => Ok (Some key)
      | Ok false => invalidKey ks'
      end
  end.

(** The key check as a statement:
    [if (invalidKey) throw new Error(`Key "${invalidKey}" must ...`)]. *)
Definition check_keys {St} (o : object) : M St unit :=
  let* found := lift (invalidKey (keys o)) in
  match found with
  | Some key => throw (InvalidKey key)
  | None => ret tt
  end.

(** [headers.forEach((header, index) => { data[header] = row[index]; })],
    from position [index] on.  The keys of [data] stand in the order of the
    first occurrence of each header, which is the order of [Object.keys]
    when no header is the decimal form of an array index and none is
    [__proto__]. *)
Fixpoint fill_data (headers : list jsval) (index : Z) (row : list jsval)
    (data : object) : object :=
  match headers with
  | [] => data
  | header :: hs =>
      fill_data hs (index + 1) row
        (obj_set data (ToString header) (array_get row index))
  end.

(** The predicate on one cell of a mapping query (lines 150-156). *)
Definition cellMatches (cellValue value : jsval) : bool :=
  match cellValue, value with
  | JStr cell, JStr v =>
      let cellValues := (fun p => toLowerCase (trim p)) <$> split "," cell in
      existsb (fun p => String.eqb p (toLowerCase v)) cellValues
  | _, _ => strict_eq cellValue value
  end.

(** [Object.entries(query).every(([key, value]) => ...)]. *)
Definition matchesQuery (headers row : list jsval) (q : object) : bool :=
  forallb (fun '(key, value) =>
             let colIndex := indexOf headers (JStr key) in
             if (colIndex =? -1)%Z then false
             else cellMatches (array_get row colIndex) value)
          (entries q).

(** The body of [rows.forEach((row, index) => ...)] of a mapping query,
    from position [index] on; [results] is the array filled so far. *)
Fixpoint scan (headers : list jsval) (q : object) (rows : list (list jsval))
    (index : Z) (results : list found) : result (list found) :=
  match rows with
  | [] => Ok results
  | row :: rest =>
      if (index =? 0)%Z then scan headers q rest (index + 1) results
      else
        match invalidKey (keys q) with
        | Err e => Err e
        | Ok (Some key) => Err (InvalidKey key)
        | Ok None =>
            scan headers q rest (index + 1)
              (if matchesQuery headers row q
               then (results ++ [mkFound (index + 1) (fill_data headers 0 row [])])%list
               else results)
        end
  end.

(** The branch [typeof query === "number"]. *)
Definition find_by_number (rows : list (list jsval)) (headers : list jsval)
    (n : Z) : result (list found) :=
  if (n =? 1)%Z then Err HeaderRowIndex
  else if (n <=? Z.of_nat (length rows))%Z then
    match rows_get rows (n - 1) with
    | Some row => Ok [mkFound n (fill_data headers 0 row [])]
    | None =>
        (* [rows[query - 1]] is undefined: reading a cell of it throws as
           soon as there is a header to read it for *)
        match headers with
        | [] => Ok [mkFound n []]
        | _ :: _ => Err TypeError
        end
    end
  else Ok [].

(** The longest run of decimal digits that ends the string: what
    [s.match(/\d+$/)] captures, [""] standing for no match. *)
Fixpoint leading_digits (s : string) : string :=
  match s with
  | "" => ""
  | String c r => if is_digit c then String c (leading_digits r) else ""
  end.

Definition trailing_digits (s : string) : string :=
  String.rev (leading_digits (String.rev s)).

(** [parseInt] on a string of decimal digits.  The value is the exact
    integer; [parseInt] returns the nearest number, which is that integer
    up to 2^53. *)
Fixpoint parse_digits (s : string) (acc : Z) : Z :=
  match s with
  | "" => acc
  | String c r => parse_digits r (10 * acc + Z.of_nat (nat_of_ascii c - 48))%Z
  end.

(** [parseInt(updatedRange.split(":")[0].match(/\d+$/)[0])]. *)
Definition parse_row_index (updatedRange : string) : result Z :=
  match trailing_digits (default "" (head (split ":" updatedRange))) with
  | "" => Err TypeError
  | ds => Ok (parse_digits ds 0)
  end.

(** [Object.keys(rowData).forEach((key) => { if (!headers.includes(key))
    headers.push(key); })]. *)
Definition extend_headers (headers : list jsval) (ks : list string) : list jsval :=
  foldl (fun hs key => if includes hs (JStr key) then hs else (hs ++ [JStr key])%list)
        headers ks.

(** [headers.map((header) => rowData[header] || "")]. *)
Definition row_values (headers : list jsval) (rowData : object) : list jsval :=
  (fun header => js_or (obj_get rowData (ToString header)) (JStr "")) <$> headers.

(** The loop of lines 283-288 over the entries of [rowData]. *)
Fixpoint patch (headers : option (list jsval)) (updatedValues : list jsval)
    (es : list (string * jsval)) : result (list jsval) :=
  match es with
  | [] => Ok updatedValues
  | (key, value) :: es' =>
      match headers with
      | None => Err TypeError      (* [headers] is undefined *)
      | Some hs =>
          let index := indexOf hs (JStr key) in
          patch headers
            (if (-1 <? index)%Z then array_set updatedValues (Z.to_nat index) value
             else updatedValues)
            es'
      end
  end.

(** The callback of [indexes.map] in [updateRow]. *)
Definition update_request (self : config) (values : list (list jsval))
    (rowData : object) (rowIndex : Z) : result ValueRange :=
  let rowRangeStart := RowRange (sheetName self) rowIndex in
  let existingRow := default [] (rows_get values (rowIndex - 1)) in
  match patch (head values) existingRow (entries rowData) with
  | Ok updatedValues => Ok (mkValueRange rowRangeStart [updatedValues])
  | Err e => Err e
  end.

(** [indexes.map(f)] for a callback that may throw. *)
Fixpoint map_result {A B} (f : A -> result B) (l : list A) : result (list B) :=
  match l with
  | [] => Ok []
  | x :: l' =>
      match f x with
      | Err e => Err e
      | Ok y => match map_result f l' with
                | Err e => Err e
                | Ok ys => Ok (y :: ys)
                end
      end
  end.

(** [indexes.sort((a, b) => b - a)]: the comparator puts [a] before [b]
    when [b - a] is negative.  On integers the descending arrangement of
    an array is unique ([sort_desc_unique] below), so the algorithm of the
    engine does not matter; insertion is used here.  [sort] also reorders
    the array of the caller in place, which no result depends on. *)
Fixpoint insert_desc (a : Z) (l : list Z) : list Z :=
  match l with
  | [] => [a]
  | b :: l' => if (b - a <=? 0)%Z then a :: l else b :: insert_desc a l'
  end.

Definition sort_desc (l : list Z) : list Z := foldr insert_desc [] l.

(** The callback of [sortedIndexes.map] in [deleteRow]. *)
Definition delete_request (sheetId : Z) (index : Z) : DimensionRange :=
  mkDimensionRange sheetId "ROWS" (index - 1) index.

Section Methods.
Context {St Raw : Type} (svc : service St Raw) (self : config).

Definition get_values : M St (option (list (list jsval))) :=
  await (values_get (spreadsheetId self) (SheetRange (sheetName self)))
        (on_values_get svc (spreadsheetId self) (SheetRange (sheetName self))).

Definition update_values (values : list (list jsval)) : M St unit :=
  await (values_update (spreadsheetId self) (SheetRange (sheetName self))
           "USER_ENTERED" values)
        (on_values_update svc (spreadsheetId self) (SheetRange (sheetName self))
           "USER_ENTERED" values).

Definition append_values (values : list (list jsval)) : M St string :=
  await (values_append (spreadsheetId self) (SheetRange (sheetName self))
           "USER_ENTERED" values)
        (on_values_append svc (spreadsheetId self) (SheetRange (sheetName self))
           "USER_ENTERED" values).

Definition batchUpdate_values (data : list ValueRange) : M St Raw :=
  await (values_batchUpdate (spreadsheetId self) "USER_ENTERED" data)
        (on_values_batchUpdate svc (spreadsheetId self) "USER_ENTERED" data).

Definition get_spreadsheet : M St (list (string * Z)) :=
  await (spreadsheets_get (spreadsheetId self))
        (on_spreadsheets_get svc (spreadsheetId self)).

Definition batchUpdate_spreadsheet (requests : list DimensionRange)
  : M St (list unit) :=
  await (spreadsheets_batchUpdate (spreadsheetId self) requests)
        (on_spreadsheets_batchUpdate svc (spreadsheetId self) requests).

(** [private async getSheetId()]. *)
Definition getSheetId : M St Z :=
  try_wrap GetSheetId
    (let* sheets := get_spreadsheet in
     match list_find (fun s => s.1 = sheetName self) sheets with
     | Some (_, (_, id)) => ret id
     | None => throw TypeError     (* [sheet] is undefined *)
     end).

(** [async findRow(query)]. *)
Definition findRow (q : query) : M St (list found) :=
  try_wrap FindRow
    (let* rows := get_values in
     match rows with
     | None | Some [] => ret []
     | Some ((headers :: _) as rows) =>
         match q with
         | QNumber n => lift (find_by_number rows headers n)
         | QMapping m => lift (scan headers m rows 0 [])
         end
     end).

(** [async addRow(rowData)]. *)
Definition addRow (rowData : object) : M St added :=
  try_wrap AddRow
    (let* values := get_values in
     let headers := values ≫= head in
     let* _ := check_keys rowData in
     let* values :=
       match headers with
       | None =>
           let headers := JStr <$> keys rowData in
           let values := row_values headers rowData in
           let* _ := update_values [headers] in
           ret values
       | Some headers =>
           let headers := extend_headers headers (keys rowData) in
           let* _ := update_values (headers :: tail (default [] values)) in
           ret (row_values headers rowData)
       end in
     let* updatedRange := append_values [values] in
     let* rowIndex := lift (parse_row_index updatedRange) in
     ret (mkAdded rowIndex rowData)).

(** [async updateRow(rowIndexes, rowData)]. *)
Definition updateRow (r : rowIndexes) (rowData : object) : M St Raw :=
  try_wrap UpdateRow
    (let indexes := normalize r in
     if bool_decide (1%Z ∈ indexes) then throw HeaderRowIndex
     else
       let* _ := check_keys rowData in
       let* values := get_values in
       match values with
       | None => throw TypeError    (* [response.data.values[0]] *)
       | Some values =>
           let* requests :=
             lift (map_result (update_request self values rowData) indexes) in
           batchUpdate_values requests
       end).

(** [async deleteRow(rowIndexes)]; the result is [countOfDeletedRows]. *)
Definition deleteRow (r : rowIndexes) : M St Z :=
  try_wrap DeleteRow
    (let indexes := normalize r in
     let sortedIndexes := sort_desc indexes in
     let* sheetId := getSheetId in
     let requests := delete_request sheetId <$> sortedIndexes in
     let* replies := batchUpdate_spreadsheet requests in
     ret (Z.of_nat (length replies))).

End Methods.

End GSheets.

Export GSheets.

(** ** [convertGoogleDriveLink] *)

Module Drive.

(** The class [[a-zA-Z0-9_-]] of the pattern. *)
Definition is_id_char (c : ascii) : bool :=
  is_lower c || is_upper c || is_digit c
  || Ascii.eqb c "_" || Ascii.eqb c "-".

(** The greedy group [([a-zA-Z0-9_-]+)] read at the start of [s]. *)
Fixpoint take_id (s : string) : string :=
  match s with
  | "" => ""
  | String c r => if is_id_char c then String c (take_id r) else ""
  end.

(** An attempt of [/\/d\/([a-zA-Z0-9_-]+)/] at the start of [s]: the
    captured group, if the pattern matches there. *)
Definition match_here (s : string) : option string :=
  match s with
  | String "/" (String "d" (String "/" r)) =>
      match take_id r with
      | "" => None
      | id => Some id
      end
  | _ => None
  end.

(** [url.match(regex)]: the attempts go from left to right and the first
    success wins; the result is [match[1]]. *)
Fixpoint regex_match (url : string) : option string :=
  match match_here url with
  | Some id => Some id
  | None =>
      match url with
      | "" => None
      | String _ r => regex_match r
      end
  end.

(** [async convertGoogleDriveLink(url)], on any argument. *)
Definition convertGoogleDriveLink (url : jsval) : jsval :=
  match url with
  | JStr u =>
      match regex_match u with
      | Some id => JStr ("https://drive.google.com/uc?id=" +:+ id)
      | None => url
      end
  | _ => url
  end.

End Drive.

Export Drive.

(** ** A sheet held in memory

    A stand-in for the remote service, used to run the methods on concrete
    sheets: the grid of cells of one sheet and the list of sheets of the
    spreadsheet.  A write leaves alone the cells that it does not cover, an
    append goes below the last row, and a structural delete removes rows
    and moves the following rows up, request after request. *)

Module MemorySheet.

Record state : Type := mkState {
  grid : list (list jsval);
  sheets : list (string * Z)
}.

(** Writing [vals] over [row] from column A on. *)
Fixpoint overlay (vals row : list jsval) : list jsval :=
  match vals, row with
  | [], _ => row
  | v :: vals', [] => v :: overlay vals' []
  | v :: vals', old :: row' =>
      match v with
      | JUndefined | JNull => old      (* an absent value skips the cell *)
      | _ => v
      end :: overlay vals' row'
  end.

(** Writing the rows [values] over the top of the grid. *)
Fixpoint overlay_rows (values grid : list (list jsval)) : list (list jsval) :=
  match values, grid with
  | [], _ => grid
  | v :: values', [] => overlay v [] :: overlay_rows values' []
  | v :: values', g :: grid' => overlay v g :: overlay_rows values' grid'
  end.

(** Writing the rows [values] over the grid from the 0-based row [r] on. *)
Fixpoint write_rows (r : nat) (values grid : list (list jsval))
  : list (list jsval) :=
  match r, grid with
  | O, _ => overlay_rows values grid
  | S r', [] => [] :: write_rows r' values []
  | S r', g :: grid' => g :: write_rows r' values grid'
  end.

Definition write_range (rng : range) (values grid : list (list jsval))
  : option (list (list jsval)) :=
  match rng with
  | SheetRange _ => Some (write_rows 0 values grid)
  | RowRange _ rowIndex =>
      if (rowIndex <? 1)%Z then None
      else Some (write_rows (Z.to_nat (rowIndex - 1)) values grid)
  end.

Fixpoint write_batch (data : list ValueRange) (grid : list (list jsval))
  : option (list (list jsval)) :=
  match data with
  | [] => Some grid
  | d :: data' =>
      match write_range (vr_range d) (vr_values d) grid with
      | Some grid' => write_batch data' grid'
      | None => None
      end
  end.

(** Removing the rows of the half-open range [[startIndex, endIndex)]. *)
Definition delete_rows (d : DimensionRange) (grid : list (list jsval))
  : list (list jsval) :=
  (take (Z.to_nat (startIndex d)) grid
   ++ drop (Z.to_nat (endIndex d)) grid)%list.

Definition delete_batch (requests : list DimensionRange)
    (grid : list (list jsval)) : list (list jsval) :=
  foldl (fun g d => delete_rows d g) grid requests.

Definition a1_row (name : string) (n : nat) : string :=
  name +:+ "!A" +:+ string_of_Z (Z.of_nat n)
       +:+ ":Z" +:+ string_of_Z (Z.of_nat n).

Definition memory : service state (list ValueRange) := {|
  on_values_get _ _ st :=
    (Resolved (match grid st with [] => None | g => Some g end), st);
  on_values_update _ rng _ values st :=
    match write_range rng values (grid st) with
    | Some g => (Resolved tt, mkState g (sheets st))
    | None => (Rejected "Unable to parse range", st)
    end;
  on_values_append _ rng _ values st :=
    let n := length (grid st) in
    (Resolved (a1_row (match rng with SheetRange s | RowRange s _ => s end) (S n)),
     mkState (write_rows n values (grid st)) (sheets st));
  on_values_batchUpdate _ _ data st :=
    match write_batch data (grid st) with
    | Some g => (Resolved data, mkState g (sheets st))
    | None => (Rejected "Unable to parse range", st)
    end;
  on_spreadsheets_get _ st := (Resolved (sheets st), st);
  on_spreadsheets_batchUpdate _ requests st :=
    if forallb (fun d => (0 <=? startIndex d)%Z
                         && (startIndex d <? endIndex d)%Z
                         && (endIndex d <=? Z.of_nat (length (grid st)))%Z)
               requests
    then (Resolved (replicate (length requests) tt),
          mkState (delete_batch requests (grid st)) (sheets st))
    else (Rejected "Invalid requests", st)
|}.

Definition start (g : list (list jsval)) (sh : list (string * Z))
  : world state := mkWorld (mkState g sh) [].

End MemorySheet.

(** Variants of the sheet in memory in which one call misbehaves. *)

Module Faulty.

(** The header write is rejected. *)
Definition rejecting_update : service MemorySheet.state (list ValueRange) := {|
  on_values_get := on_values_get MemorySheet.memory;
  on_values_update _ _ _ _ st := (Rejected "The caller does not have permission", st);
  on_values_append := on_values_append MemorySheet.memory;
  on_values_batchUpdate := on_values_batchUpdate MemorySheet.memory;
  on_spreadsheets_get := on_spreadsheets_get MemorySheet.memory;
  on_spreadsheets_batchUpdate := on_spreadsheets_batchUpdate MemorySheet.memory
|}.

(** The append takes the row and reports a range made of whole columns. *)
Definition column_range_append : service MemorySheet.state (list ValueRange) := {|
  on_values_get := on_values_get MemorySheet.memory;
  on_values_update := on_values_update MemorySheet.memory;
  on_values_append sid rng opt values st :=
    (Resolved "test!A:C",
     (on_values_append MemorySheet.memory sid rng opt values st).2);
  on_values_batchUpdate := on_values_batchUpdate MemorySheet.memory;
  on_spreadsheets_get := on_spreadsheets_get MemorySheet.memory;
  on_spreadsheets_batchUpdate := on_spreadsheets_batchUpdate MemorySheet.memory
|}.

(** The lookup of the sheets and the batched write are rejected. *)
Definition rejecting_batches : service MemorySheet.state (list ValueRange) := {|
  on_values_get := on_values_get MemorySheet.memory;
  on_values_update := on_values_update MemorySheet.memory;
  on_values_append := on_values_append MemorySheet.memory;
  on_values_batchUpdate _ _ _ st := (Rejected "Quota exceeded", st);
  on_spreadsheets_get _ st := (Rejected "Requested entity was not found", st);
  on_spreadsheets_batchUpdate := on_spreadsheets_batchUpdate MemorySheet.memory
|}.

End Faulty.

(** Concrete sheets on which the statements below are instantiated. *)

Module Demo.

Definition self : config := mkConfig "19MoJAvrt26b" "test".

Definition world_of (g : list (list jsval)) : world MemorySheet.state :=
  MemorySheet.start g [("main", 0%Z); ("test", 7%Z)].

Definition empty_sheet : world MemorySheet.state := world_of [].

Definition header_only : world MemorySheet.state :=
  world_of [[JStr "Name"; JStr "Age"]].

Definition people : world MemorySheet.state :=
  world_of [[JStr "Name"; JStr "Age"; JStr "City"];
            [JStr "John, Mark"; JStr "22"; JStr "Oslo"];
            [JStr "Johnny"; JStr "25"];
            [JStr "Alex"; JStr "30"; JStr "Rome"]].

End Demo.

(** ** Construction: [constructor], [create], [initializeCredentials]

    The file system and the authentication library are parameters: reading
    the credentials file as JSON and exchanging the credentials for a
    client either resolve or reject.  Every such call is recorded. *)

Module Construction.

(** [interface GoogleSheetsConfig]; a field that the caller leaves out is
    [None]. *)
Record GoogleSheetsConfig : Type := mkGoogleSheetsConfig {
  cfg_credentialsPath : option string;
  cfg_spreadsheetId : option string;
  cfg_sheetName : option string
}.

(** [!s] on an optional string: absent or empty. *)
Definition missing (s : option string) : bool :=
  match s with
  | None | Some "" => true
  | Some _ => false
  end.

(** The fields that the constructor sets. *)
Record instance : Type := mkInstance {
  credentialsPath : string;
  fields : config
}.

Inductive construction_error : Type :=
| SpreadsheetIdRequired       (* ID of spreadsheet is required *)
| SheetNameRequired           (* Name of sheet in your spreadsheet is required *)
| CredentialsPathUndefined    (* Credentials path is undefined. *)
| PlatformError (reason : string)
| LoadingCredentials (cause : construction_error).
                              (* Error loading credentials: <cause> *)

(** [constructor(config)]. *)
Definition constructor (c : GoogleSheetsConfig)
  : construction_error + instance :=
  if missing (cfg_spreadsheetId c) then inl SpreadsheetIdRequired
  else if missing (cfg_sheetName c) then inl SheetNameRequired
  else
    inr (mkInstance
           (if missing (cfg_credentialsPath c) then "./credentials.json"
            else default "" (cfg_credentialsPath c))
           (mkConfig (default "" (cfg_spreadsheetId c))
                     (default "" (cfg_sheetName c)))).

(** What the initialization asks of the platform. *)
Inductive io : Type :=
| ReadJson (path : string)            (* Bun.file(path).json() *)
| GetClient.                          (* auth.getClient() *)

Record platform (Cred Client : Type) : Type := mkPlatform {
  file_json : string -> reply Cred;
  getClient : Cred -> reply Client
}.
Global Arguments file_json {Cred Client}.
Global Arguments getClient {Cred Client}.

Section Create.
Context {Cred Client : Type} (pf : platform Cred Client).

(** [private async initializeCredentials()]: the client that becomes
    [mainInstance], and the calls made. *)
Definition initializeCredentials (i : instance)
  : (construction_error + Client) * list io :=
  if String.eqb (credentialsPath i) ""
  then (inl (LoadingCredentials CredentialsPathUndefined), [])
  else
    match file_json pf (credentialsPath i) with
    | Rejected why =>
        (inl (LoadingCredentials (PlatformError why)),
         [ReadJson (credentialsPath i)])
    | Resolved credentials =>
        match getClient pf credentials with
        | Rejected why =>
            (inl (LoadingCredentials (PlatformError why)),
             [ReadJson (credentialsPath i); GetClient])
        | Resolved authClient =>
            (inr authClient, [ReadJson (credentialsPath i); GetClient])
        end
    end.

(** [static async create(config)]. *)
Definition create (c : GoogleSheetsConfig)
  : (construction_error + instance * Client) * list io :=
  match constructor c with
  | inl e => (inl e, [])
  | inr i =>
      match initializeCredentials i with
      | (inl e, calls) => (inl e, calls)
      | (inr client, calls) => (inr (i, client), calls)
      end
  end.

End Create.

End Construction.

(** ** Vocabulary of the statements *)

(** The first character of a key satisfies [P]; false on the empty key. *)
Definition starts_with (P : ascii -> bool) (key : string) : bool :=
  match key with
  | "" => false
  | String c _ => P c
  end.

(** The code unit [c] is an ASCII character.  On text of such characters
    [toUpperCase], [toLowerCase] and [trim] of the embedding are those of
    JavaScript. *)
Definition is_ascii (c : ascii) : bool := (nat_of_ascii c <? 128)%nat.

(** The results that a mapping query collects from [rows], whose first
    row sits at the 0-based position [index]. *)
Fixpoint matching (headers : list jsval) (q : object)
    (rows : list (list jsval)) (index : Z) : list found :=
  match rows with
  | [] => []
  | row :: rest =>
      (if matchesQuery headers row q
       then [mkFound (index + 1) (fill_data headers 0 row [])]
       else []) ++ matching headers q rest (index + 1)
  end.

(** Every character of [s] satisfies [P]. *)
Fixpoint all_chars (P : ascii -> bool) (s : string) : bool :=
  match s with
  | "" => true
  | String c r => P c && all_chars P r
  end.



(** [url] contains the share-link pattern: the text [/d/] followed by at
    least one character of an identifier. *)
Definition contains_share_pattern (url : string) : Prop :=
  exists pre c rest,
    url = pre +:+ "/d/" +:+ String c rest /\ is_id_char c = true.

(** [url] reads [pre], then [/d/], then the identifier [id] taken as far
    as it goes, then [rest]. *)
Definition share_pattern_at (url pre id rest : string) : Prop :=
  url = pre +:+ "/d/" +:+ id +:+ rest
  /\ id <> "" /\ all_chars is_id_char id = true
  /\ starts_with is_id_char rest = false.

(** The mapping query in the words of the specification.  A key resolves
    to the first column whose header is that key. *)
Definition resolves_to (headers : list jsval) (key : string) (col : nat) : Prop :=
  headers !! col = Some (JStr key)
  /\ forall j, (j < col)%nat -> headers !! j <> Some (JStr key).

(** When cell and query value are both strings: the cell is split on
    commas, each part is trimmed and lowercased, and the lowercased query
    value is one of the parts.  Otherwise: strict equality. *)
Definition cell_satisfies (cell value : jsval) : Prop :=
  match cell, value with
  | JStr c, JStr v =>
      exists part, part ∈ split "," c /\ toLowerCase (trim part) = toLowerCase v
  | _, _ => cell = value
  end.

(** Every query key resolves to a header column whose cell in the row
    satisfies the predicate. *)
Definition row_matches (headers row : list jsval) (q : object) : Prop :=
  forall key value,
    (key, value) ∈ q ->
    exists col, resolves_to headers key col
                /\ cell_satisfies (array_get row (Z.of_nat col)) value.

(** What the callback of [indexes.map] builds for every position. *)
Definition request_for (self : config) (values : list (list jsval))
    (headers : list jsval) (rowData : object) (rowIndex : Z)
    (d : ValueRange) : Prop :=
  exists updatedValues,
    d = mkValueRange (RowRange (sheetName self) rowIndex) [updatedValues]
    /\ patch (Some headers) (default [] (rows_get values (rowIndex - 1)))
         (entries rowData) = Ok updatedValues.

(** Positions in descending order: a later entry is never greater than an
    earlier one. *)
Definition descending (l : list Z) : Prop :=
  forall i j a b,
    (i < j)%nat -> l !! i = Some a -> l !! j = Some b -> (b <= a)%Z.

(** [s] contains the character [c]. *)
Fixpoint has_char (c : ascii) (s : string) : bool :=
  match s with
  | "" => false
  | String x r => Ascii.eqb x c || has_char c r
  end.

(** The predicate of the mapping query once more, in terms that owe
    nothing to the string and array primitives of the embedding: the
    pieces of a cell between its commas, a piece without the white space
    at its two ends, a text letter by letter in lowercase, and the cell of
    a row in a column. *)









(** The query in which every string value is replaced by its image
    under [f]. *)
Definition map_values (f : string -> string) (q : object) : object :=
  (fun kv => (kv.1, match kv.2 with JStr v => JStr (f v) | v => v end)) <$> q.

(** The rows of [grid], whose first row has the 1-based position [pos],
    without the rows whose position is in [ps]. *)
Fixpoint remove_at (pos : Z) (ps : list Z) (grid : list (list jsval))
  : list (list jsval) :=
  match grid with
  | [] => []
  | row :: rest =>
      if bool_decide (pos ∈ ps) then remove_at (pos + 1) ps rest
      else row :: remove_at (pos + 1) ps rest
  end.

(** The header row that [addRow] writes for the value range that it has
    read, and the rows of its header write. *)
Definition addRow_headers (values : option (list (list jsval)))
    (rowData : object) : list jsval :=
  match values ≫= head with
  | None => JStr <$> keys rowData
  | Some old => extend_headers old (keys rowData)
  end.

Definition addRow_written (values : option (list (list jsval)))
    (rowData : object) : list (list jsval) :=
  match values ≫= head with
  | None => [addRow_headers values rowData]
  | Some _ => addRow_headers values rowData :: tail (default [] values)
  end.

Section Vocabulary.
Context {St Raw : Type} (svc : service St Raw) (self : config).

(** In world [w] the read of the value range resolves with [values] and
    leaves the remote side in state [s]. *)
Definition read_resolves (w : world St)
    (values : option (list (list jsval))) (s : St) : Prop :=
  on_values_get svc (spreadsheetId self) (SheetRange (sheetName self)) (remote w)
  = (Resolved values, s).

(** The request by which every method reads the value range. *)
Definition the_read : request :=
  values_get (spreadsheetId self) (SheetRange (sheetName self)).

End Vocabulary.

(** ** Basic facts *)

Section KeyCheck.

Lemma char_unchanged_iff (c : ascii) :
  negb (Ascii.eqb c (char_toUpperCase c)) = is_lower c.
Proof. by destruct c as [[] [] [] [] [] [] [] []]. Qed.

Lemma upper_not_lower (c : ascii) : is_upper c = true -> is_lower c = false.
Proof. by destruct c as [[] [] [] [] [] [] [] []]. Qed.

Lemma digit_not_lower (c : ascii) : is_digit c = true -> is_lower c = false.
Proof. by destruct c as [[] [] [] [] [] [] [] []]. Qed.

Lemma key_is_invalid_nonempty (key : string) :
  key <> "" -> key_is_invalid key = Ok (starts_with is_lower key).
Proof.
  destruct key as [|c r]; [done|]. intros _. simpl.
  by rewrite char_unchanged_iff.
Qed.


Lemma invalidKey_passes (ks : list string) :
  Forall (fun k => k <> "" /\ starts_with is_lower k = false) ks ->
  invalidKey ks = Ok None.
Proof.
  induction 1 as [|k ks [Hk Hlow] _ IH]; [done|]. simpl.
  by rewrite (key_is_invalid_nonempty k Hk), Hlow.
Qed.

Lemma starts_upper_passes (key : string) :
  starts_with is_upper key = true ->
  key <> "" /\ starts_with is_lower key = false.
Proof.
  destruct key as [|c r]; [done|]. simpl. intros H.
  split; [done|by apply upper_not_lower].
Qed.

Lemma starts_digit_passes (key : string) :
  starts_with is_digit key = true ->
  key <> "" /\ starts_with is_lower key = false.
Proof.
  destruct key as [|c r]; [done|]. simpl. intros H.
  split; [done|by apply digit_not_lower].
Qed.

End KeyCheck.

Ltac unfold_method :=
  unfold findRow, addRow, updateRow, deleteRow, getSheetId, check_keys,
    get_values, update_values, append_values, batchUpdate_values,
    get_spreadsheet, batchUpdate_spreadsheet, try_wrap, bind, await, lift,
    ret, throw, read_resolves, the_read in *.

Section Scan.

Lemma scan_valid headers q rows index acc :
  invalidKey (keys q) = Ok None -> (1 <= index)%Z ->
  scan headers q rows index acc = Ok (acc ++ matching headers q rows index).
Proof.
  intros Hk. revert index acc.
  induction rows as [|row rest IH]; intros index acc Hi; simpl.
  - by rewrite app_nil_r.
  - destruct (Z.eqb_spec index 0) as [->|_]; [lia|].
    rewrite Hk, IH by lia.
    destruct (matchesQuery headers row q); simpl.
    + by rewrite <- app_assoc.
    + done.
Qed.

Lemma scan_invalid headers q row rest index acc key :
  invalidKey (keys q) = Ok (Some key) -> (1 <= index)%Z ->
  scan headers q (row :: rest) index acc = Err (InvalidKey key).
Proof.
  intros Hk Hi. simpl.
  destruct (Z.eqb_spec index 0) as [->|_]; [lia|]. by rewrite Hk.
Qed.

Lemma scan_never_invalid headers q rows index acc key :
  invalidKey (keys q) = Ok None ->
  scan headers q rows index acc <> Err (InvalidKey key).
Proof.
  intros Hk. revert index acc.
  induction rows as [|row rest IH]; intros index acc; simpl; [done|].
  destruct (index =? 0)%Z; [apply IH|]. rewrite Hk. apply IH.
Qed.

End Scan.

(** ** The key check (claims C1 and C2) *)

Section KeyCheckOfMethods.
Context {St Raw : Type} (svc : service St Raw) (self : config).

Lemma check_keys_passes (o : object) (w : world St) :
  invalidKey (keys o) = Ok None -> check_keys o w = (Ok tt, w).
Proof. intros H. unfold_method. by rewrite H. Qed.

Lemma check_keys_throws (o : object) (w : world St) key :
  invalidKey (keys o) = Ok (Some key) ->
  check_keys (St:=St) o w = (Err (InvalidKey key), w).
Proof. intros H. unfold_method. by rewrite H. Qed.


Lemma updateRow_invalid_key (r : rowIndexes) (o : object) (w : world St) key :
  invalidKey (keys o) = Ok (Some key) ->
  updateRow svc self r o w
  = (Err (Wrapped UpdateRow
            (if bool_decide (1%Z ∈ normalize r) then HeaderRowIndex
             else InvalidKey key)), w).
Proof.
  intros H. unfold_method. simpl.
  destruct (bool_decide _); [done|]. by rewrite H.
Qed.

Lemma findRow_invalid_key (o : object) (w : world St) headers row rest s key :
  invalidKey (keys o) = Ok (Some key) ->
  read_resolves svc self w (Some (headers :: row :: rest)) s ->
  findRow svc self (QMapping o) w
  = (Err (Wrapped FindRow (InvalidKey key)),
     mkWorld s (trace w ++ [the_read self])).
Proof.
  intros H Hr. unfold_method. simpl. rewrite Hr. simpl. by rewrite H.
Qed.

Lemma parse_row_index_error rng e :
  parse_row_index rng = Err e -> e = TypeError.
Proof.
  unfold parse_row_index. destruct (trailing_digits _); congruence.
Qed.

Lemma addRow_never_invalid (o : object) (w : world St) key :
  invalidKey (keys o) = Ok None ->
  (addRow svc self o w).1 <> Err (Wrapped AddRow (InvalidKey key)).
Proof.
  intros H. unfold_method. simpl.
  destruct (on_values_get _ _ _ _) as [[values|why] s]; simpl; [|done].
  rewrite H. simpl.
  destruct (values ≫= head) as [headers|]; simpl.
  - destruct (on_values_update _ _ _ _ _ _) as [[[]|why] s1]; simpl; [|done].
    destruct (on_values_append _ _ _ _ _ _) as [[rng|why] s2]; simpl; [|done].
    destruct (parse_row_index rng) as [n|e] eqn:Hp; simpl; [done|].
    by apply parse_row_index_error in Hp as ->.
  - destruct (on_values_update _ _ _ _ _ _) as [[[]|why] s1]; simpl; [|done].
    destruct (on_values_append _ _ _ _ _ _) as [[rng|why] s2]; simpl; [|done].
    destruct (parse_row_index rng) as [n|e] eqn:Hp; simpl; [done|].
    by apply parse_row_index_error in Hp as ->.
Qed.

Lemma map_result_never_invalid {A B} (f : A -> result B) (l : list A) key :
  (forall x, f x <> Err (InvalidKey key)) ->
  map_result f l <> Err (InvalidKey key).
Proof.
  intros Hf. induction l as [|x l IH]; simpl; [done|].
  specialize (Hf x). destruct (f x) as [y|e]; [|congruence].
  destruct (map_result f l); congruence.
Qed.

Lemma patch_error headers row es e :
  patch headers row es = Err e -> e = TypeError.
Proof.
  revert row. induction es as [|[key value] es IH]; intros row; simpl; [done|].
  destruct headers as [hs|]; [apply IH|congruence].
Qed.

Lemma updateRow_never_invalid (r : rowIndexes) (o : object) (w : world St) key :
  invalidKey (keys o) = Ok None ->
  (updateRow svc self r o w).1 <> Err (Wrapped UpdateRow (InvalidKey key)).
Proof.
  intros H. unfold_method. simpl.
  destruct (bool_decide _); [done|]. rewrite H. simpl.
  destruct (on_values_get _ _ _ _) as [[[values|]|why] s]; simpl; [|done..].
  pose proof (map_result_never_invalid (update_request self values o)
                (normalize r) key) as Hm.
  destruct (map_result _ _) as [reqs|e] eqn:Hreqs; simpl.
  - by destruct (on_values_batchUpdate _ _ _ _ _) as [[raw|why] s1].
  - intros [= ->]. apply Hm; [|done]. intros idx. unfold update_request.
    destruct (patch _ _ _) eqn:Hp; [done|].
    apply patch_error in Hp as ->. done.
Qed.

Lemma findRow_never_invalid (o : object) (w : world St) key :
  invalidKey (keys o) = Ok None ->
  (findRow svc self (QMapping o) w).1 <> Err (Wrapped FindRow (InvalidKey key)).
Proof.
  intros H. unfold_method. simpl.
  destruct (on_values_get _ _ _ _) as [[[[|headers rest]|]|why] s]; simpl;
    [done| |done..].
  pose proof (scan_never_invalid headers o rest 1 [] key H) as Hs.
  destruct (scan _ _ _ _ _) as [res|e]; simpl; congruence.
Qed.

End KeyCheckOfMethods.

(** C1.  The key check does not enforce the rule that its error message
    and the description of the methods state, that every key starts with
    an uppercase letter.  A key whose first character is a digit does not
    start with an uppercase letter, yet [addRow] accepts it and writes it
    into the header row.  And on a sheet that holds only the header row, a
    mapping query with a lowercase key returns the empty array, where
    [addRow] and [updateRow] reject the same key on the same sheet. *)
Theorem key_check_divergence :
  (starts_with is_upper "1abc" = false
   /\ addRow MemorySheet.memory Demo.self [("1abc", JStr "x")] Demo.header_only
      = (Ok (mkAdded 2 [("1abc", JStr "x")]),
         mkWorld (MemorySheet.mkState
                    [[JStr "Name"; JStr "Age"; JStr "1abc"];
                     [JStr ""; JStr ""; JStr "x"]]
                    (MemorySheet.sheets (remote Demo.header_only)))
           [values_get "19MoJAvrt26b" (SheetRange "test");
            values_update "19MoJAvrt26b" (SheetRange "test") "USER_ENTERED"
              [[JStr "Name"; JStr "Age"; JStr "1abc"]];
            values_append "19MoJAvrt26b" (SheetRange "test") "USER_ENTERED"
              [[JStr ""; JStr ""; JStr "x"]]]))
  /\ (starts_with is_upper "name" = false
      /\ (findRow MemorySheet.memory Demo.self (QMapping [("name", JStr "x")])
            Demo.header_only).1 = Ok []
      /\ (addRow MemorySheet.memory Demo.self [("name", JStr "x")]
            Demo.header_only).1 = Err (Wrapped AddRow (InvalidKey "name"))
      /\ (updateRow MemorySheet.memory Demo.self (Single 2) [("name", JStr "x")]
            Demo.header_only).1 = Err (Wrapped UpdateRow (InvalidKey "name"))).
Proof. by vm_compute. Qed.




(** ** Position 1 and positions past the end (claims C3 and C4) *)

(** C3 fails as stated: on an empty sheet [findRow(1)] returns the empty
    array, because the guard on an absent value range comes before the test
    of the position. *)
Lemma findRow_header_counterexample :
  (findRow MemorySheet.memory Demo.self (QNumber 1) Demo.empty_sheet).1 = Ok [].
Proof. by vm_compute. Qed.

(** C3, amended.  [findRow(1)] fails with a Validation error whenever the
    value range of the sheet has at least one row, and returns the empty
    array on an empty sheet; [updateRow] fails with a Validation error
    whenever the normalized sequence of positions contains 1, whatever the
    sheet holds, and sends no request in that case. *)
Theorem header_row_is_rejected {St Raw : Type} (svc : service St Raw)
    (self : config) (w : world St) :
  (forall headers rest s,
     read_resolves svc self w (Some (headers :: rest)) s ->
     (findRow svc self (QNumber 1) w).1 = Err (Wrapped FindRow HeaderRowIndex)
     /\ is_validation (Wrapped FindRow HeaderRowIndex) = true)
  /\ (forall values s,
        read_resolves svc self w values s ->
        values = None \/ values = Some [] ->
        (findRow svc self (QNumber 1) w).1 = Ok [])
  /\ (forall r rowData,
        1%Z ∈ normalize r ->
        updateRow svc self r rowData w
        = (Err (Wrapped UpdateRow HeaderRowIndex), w)
        /\ is_validation (Wrapped UpdateRow HeaderRowIndex) = true).
Proof.
  split_and!.
  - intros headers rest s Hr. unfold_method. simpl. by rewrite Hr.
  - intros values s Hr Hv. unfold_method. simpl. rewrite Hr.
    by destruct Hv as [-> | ->].
  - intros r rowData Hin. unfold_method. simpl.
    by rewrite bool_decide_eq_true_2.
Qed.

Lemma header_row_is_rejected_witness :
  (findRow MemorySheet.memory Demo.self (QNumber 1) Demo.people).1
  = Err (Wrapped FindRow HeaderRowIndex)
  /\ (findRow MemorySheet.memory Demo.self (QNumber 1) Demo.empty_sheet).1 = Ok []
  /\ updateRow MemorySheet.memory Demo.self (Several [3; 1]%Z)
       [("Name", JStr "x")] Demo.empty_sheet
     = (Err (Wrapped UpdateRow HeaderRowIndex), Demo.empty_sheet).
Proof.
  split_and!.
  - refine (proj1 (proj1 (header_row_is_rejected MemorySheet.memory Demo.self
                            Demo.people) _ _ _ _)).
    reflexivity.
  - refine (proj1 (proj2 (header_row_is_rejected MemorySheet.memory Demo.self
                            Demo.empty_sheet)) None _ _ _).
    + reflexivity.
    + by left.
  - refine (proj1 (proj2 (proj2 (header_row_is_rejected MemorySheet.memory
                                   Demo.self Demo.empty_sheet)) _ _ _)).
    apply elem_of_cons; right. apply elem_of_cons; by left.
Defined.

(** C4.  Once the read of the value range has resolved: a number greater
    than the number of rows of the value range gives the empty array, not
    an error; and on an empty sheet every query, number or mapping, gives
    the empty array. *)
Theorem findRow_past_the_end {St Raw : Type} (svc : service St Raw)
    (self : config) (w : world St)
    (values : option (list (list jsval))) (s : St) :
  read_resolves svc self w values s ->
  (forall n, (Z.of_nat (length (default [] values)) < n)%Z ->
             (findRow svc self (QNumber n) w).1 = Ok [])
  /\ (values = None \/ values = Some [] ->
      forall q, (findRow svc self q w).1 = Ok []).
Proof.
  intros Hr. split.
  - intros n Hn. unfold_method. simpl. rewrite Hr.
    destruct values as [[|headers rest]|]; simpl in *; [done| |done].
    unfold find_by_number.
    destruct (Z.eqb_spec n 1) as [->|_]; [lia|].
    destruct (Z.leb_spec n (Z.of_nat (length (headers :: rest)))) as [Hle|_];
      [simpl in Hle; lia|done].
  - intros Hv q. unfold_method. simpl. rewrite Hr.
    by destruct Hv as [-> | ->].
Qed.

Lemma findRow_past_the_end_witness :
  (forall n, (4 < n)%Z ->
     (findRow MemorySheet.memory Demo.self (QNumber n) Demo.people).1 = Ok [])
  /\ (forall q, (findRow MemorySheet.memory Demo.self q Demo.empty_sheet).1 = Ok []).
Proof.
  split.
  - refine (proj1 (findRow_past_the_end MemorySheet.memory Demo.self Demo.people
                     (Some (MemorySheet.grid (remote Demo.people)))
                     (remote Demo.people) _)).
    reflexivity.
  - refine (proj2 (findRow_past_the_end MemorySheet.memory Demo.self
                     Demo.empty_sheet None _ _) _).
    + reflexivity.
    + by left.
Defined.

(** ** The link helper (claim C9) *)

Section Link.

Lemma append_cons c (s t : string) : String c s +:+ t = String c (s +:+ t).
Proof. reflexivity. Qed.

Lemma append_nil (t : string) : "" +:+ t = t.
Proof. reflexivity. Qed.

Lemma take_id_split (s : string) :
  exists rest, s = take_id s +:+ rest
               /\ all_chars is_id_char (take_id s) = true
               /\ starts_with is_id_char rest = false.
Proof.
  induction s as [|c r (rest & Heq & Hall & Hrest)]; simpl.
  - by exists "".
  - destruct (is_id_char c) eqn:Hc.
    + exists rest. rewrite append_cons, <- Heq. simpl. by rewrite Hc, Hall.
    + exists (String c r). simpl. by rewrite Hc.
Qed.

Lemma match_here_Some (s id : string) :
  match_here s = Some id -> exists rest, share_pattern_at s "" id rest.
Proof.
  unfold match_here, share_pattern_at.
  destruct s as [|c1 [|c2 [|c3 r]]]; try done;
    try (intros H; repeat case_match; done).
  intros H.
  destruct (take_id_split r) as (rest & Heq & Hall & Hrest).
  assert (c1 = "/"%char /\ c2 = "d"%char /\ c3 = "/"%char
          /\ take_id r = id /\ id <> "") as (-> & -> & -> & <- & Hne).
  { repeat case_match; simplify_eq; by rewrite <- ?H0. }
  exists rest. rewrite append_nil, !append_cons, append_nil. by rewrite <- Heq.
Qed.

Lemma match_here_pattern (c : ascii) (rest : string) :
  is_id_char c = true -> is_Some (match_here ("/d/" +:+ String c rest)).
Proof.
  intros Hc. rewrite !append_cons, append_nil. simpl. rewrite Hc. by eexists.
Qed.

(** The first success from the left: where it is, and that no attempt
    before it succeeds. *)
Lemma regex_match_Some (url id : string) :
  regex_match url = Some id ->
  exists pre rest,
    share_pattern_at url pre id rest
    /\ forall p q, pre = p +:+ q -> q <> "" ->
                   match_here (q +:+ "/d/" +:+ id +:+ rest) = None.
Proof.
  induction url as [|c r IH].
  - simpl. done.
  - intros H. cbn [regex_match] in H.
    destruct (match_here (String c r)) as [id'|] eqn:Hh.
    + injection H as ->. destruct (match_here_Some _ _ Hh) as (rest & Hp).
      exists "", rest. split; [done|].
      intros p q Hpq Hq. by destruct p, q.
    + destruct (IH H) as (pre & rest & (Heq & Hne & Hall & Hrest) & Hleft).
      exists (String c pre), rest. split.
      * split_and!; [|done..]. by rewrite append_cons, <- Heq.
      * intros p q Hpq Hq. destruct p as [|c' p].
        -- rewrite append_nil in Hpq. subst q.
           by rewrite append_cons, <- Heq.
        -- rewrite append_cons in Hpq. injection Hpq as -> ->.
           by apply (Hleft p q).
Qed.

Lemma regex_match_contains (url : string) :
  contains_share_pattern url -> is_Some (regex_match url).
Proof.
  intros (pre & c & rest & -> & Hc).
  induction pre as [|c' pre IH].
  - rewrite append_nil.
    destruct (match_here_pattern c rest Hc) as [id Hid].
    rewrite !append_cons, append_nil in *. cbn [regex_match]. rewrite Hid.
    by eexists.
  - rewrite append_cons. cbn [regex_match].
    destruct (match_here _); [by eexists|done].
Qed.

Lemma share_pattern_contains (url pre id rest : string) :
  share_pattern_at url pre id rest -> contains_share_pattern url.
Proof.
  intros (-> & Hne & Hall & _). destruct id as [|c id]; [done|].
  simpl in Hall. apply andb_true_iff in Hall as [Hc _].
  exists pre, c, (id +:+ rest). by rewrite append_cons.
Qed.

End Link.

(** C9.  [convertGoogleDriveLink] computes its result from its argument
    alone.  On a string that contains the share-link pattern it returns
    the direct link built from the identifier that the pattern extracts:
    the identifier of the leftmost occurrence, taken as far as it goes.  On
    a string without the pattern, and on a value that is not a string, it
    returns its argument. *)
Theorem convertGoogleDriveLink_spec :
  (forall url, contains_share_pattern url ->
     exists pre id rest,
       share_pattern_at url pre id rest
       /\ (forall p q, pre = p +:+ q -> q <> "" ->
                       match_here (q +:+ "/d/" +:+ id +:+ rest) = None)
       /\ convertGoogleDriveLink (JStr url)
          = JStr ("https://drive.google.com/uc?id=" +:+ id))
  /\ (forall url, ~ contains_share_pattern url ->
        convertGoogleDriveLink (JStr url) = JStr url)
  /\ (forall v, is_string v = false -> convertGoogleDriveLink v = v)
  /\ convertGoogleDriveLink (JStr "https://drive.google.com/file/d/ABC123/view")
     = JStr "https://drive.google.com/uc?id=ABC123".
Proof.
  split_and!.
  - intros url Hc. destruct (regex_match_contains url Hc) as [id Hid].
    destruct (regex_match_Some url id Hid) as (pre & rest & Hp & Hleft).
    exists pre, id, rest. split_and!; [done..|].
    unfold convertGoogleDriveLink. by rewrite Hid.
  - intros url Hc. unfold convertGoogleDriveLink.
    destruct (regex_match url) as [id|] eqn:Hid; [|done].
    destruct (regex_match_Some url id Hid) as (pre & rest & Hp & _).
    destruct Hc. by eapply share_pattern_contains.
  - by intros [].
  - reflexivity.
Qed.

Lemma convertGoogleDriveLink_spec_witness :
  convertGoogleDriveLink (JStr "https://example.org/d/") = JStr "https://example.org/d/"
  /\ convertGoogleDriveLink (JNum 42) = JNum 42.
Proof.
  split.
  - refine (proj1 (proj2 convertGoogleDriveLink_spec) _ _).
    intros Hc. apply regex_match_contains in Hc. vm_compute in Hc.
    by destruct Hc.
  - refine (proj1 (proj2 (proj2 convertGoogleDriveLink_spec)) _ _).
    reflexivity.
Defined.

(** ** Arrays *)

Section Arrays.

Lemma index_of_Some_1 (a : list jsval) (x : jsval) (i : nat) :
  index_of a x = Some i ->
  a !! i = Some x /\ forall j, (j < i)%nat -> a !! j <> Some x.
Proof.
  revert i. induction a as [|y a IH]; intros i; simpl; [done|].
  destruct (decide (y = x)) as [->|Hne].
  - intros [= <-]. split; [done|]. lia.
  - destruct (index_of a x) as [k|]; simpl; [|done].
    intros [= <-]. destruct (IH k eq_refl) as [H1 H2]. split; [done|].
    intros [|j] Hj; simpl; [congruence|]. apply H2. lia.
Qed.

Lemma index_of_Some_2 (a : list jsval) (x : jsval) (i : nat) :
  a !! i = Some x -> (forall j, (j < i)%nat -> a !! j <> Some x) ->
  index_of a x = Some i.
Proof.
  revert i. induction a as [|y a IH]; intros i; [done|]. simpl.
  destruct (decide (y = x)) as [->|Hne]; intros Hi Hlt.
  - destruct i as [|i]; [done|]. destruct (Hlt 0%nat); [lia|done].
  - destruct i as [|i]; simpl in Hi; [congruence|].
    rewrite (IH i Hi); [done|]. intros j Hj. apply (Hlt (S j)). lia.
Qed.

Lemma index_of_None (a : list jsval) (x : jsval) :
  index_of a x = None <-> x ∉ a.
Proof.
  induction a as [|y a IH]; simpl.
  - split; [intros _; apply not_elem_of_nil|done].
  - rewrite not_elem_of_cons. destruct (decide (y = x)) as [->|Hne].
    + split; [done|]. by intros [? _].
    + destruct (index_of a x); simpl.
      * split; [done|]. intros [_ H]. by apply IH in H.
      * split; [|done]. intros _. split; [congruence|]. by apply IH.
Qed.

Lemma indexOf_absent (a : list jsval) (x : jsval) :
  indexOf a x = (-1)%Z <-> x ∉ a.
Proof.
  unfold indexOf. rewrite <- index_of_None.
  destruct (index_of a x); split; try done. lia.
Qed.

Lemma indexOf_present (a : list jsval) (x : jsval) :
  indexOf a x <> (-1)%Z ->
  exists i, index_of a x = Some i /\ indexOf a x = Z.of_nat i.
Proof.
  unfold indexOf. destruct (index_of a x) as [i|]; [by exists i|done].
Qed.

Lemma array_get_nat (a : list jsval) (i : nat) :
  array_get a (Z.of_nat i) = default JUndefined (a !! i).
Proof.
  unfold array_get. destruct (Z.ltb_spec (Z.of_nat i) 0); [lia|].
  by rewrite Nat2Z.id.
Qed.

Lemma array_get_neg (a : list jsval) (i : Z) :
  (i < 0)%Z -> array_get a i = JUndefined.
Proof.
  intros Hi. unfold array_get. by destruct (Z.ltb_spec i 0); [|lia].
Qed.

Lemma array_set_same (a : list jsval) (i : nat) (v : jsval) :
  array_set a i v !! i = Some v.
Proof.
  unfold array_set. destruct (decide (i < length a)%nat).
  - by apply list_lookup_insert_eq.
  - rewrite lookup_app_r by lia. rewrite lookup_app_r; rewrite length_replicate;
      [|lia]. by rewrite Nat.sub_diag.
Qed.

Lemma array_set_other (a : list jsval) (i j : nat) (v : jsval) :
  i <> j ->
  default JUndefined (array_set a i v !! j) = default JUndefined (a !! j).
Proof.
  intros Hij. unfold array_set. destruct (decide (i < length a)%nat).
  - by rewrite list_lookup_insert_ne.
  - destruct (decide (j < length a)%nat) as [Hj|Hj].
    + by rewrite lookup_app_l.
    + rewrite lookup_app_r by lia. rewrite (lookup_ge_None_2 a j) by lia.
      destruct (decide (j - length a < i - length a)%nat).
      * rewrite lookup_app_l by (rewrite length_replicate; lia).
        by rewrite lookup_replicate_2.
      * rewrite lookup_app_r by (rewrite length_replicate; lia).
        rewrite length_replicate. rewrite lookup_ge_None_2; [done|].
        simpl. lia.
Qed.

End Arrays.

(** ** The mapping query (claim C7) *)

Section MappingQuery.

Lemma cellMatches_spec (cell value : jsval) :
  cellMatches cell value = true <-> cell_satisfies cell value.
Proof.
  unfold cellMatches, cell_satisfies, strict_eq.
  destruct cell as [| | | |c|m], value as [| | | |v|m'];
    try apply bool_decide_eq_true.
  rewrite existsb_exists. split.
  - intros (p & Hin & Heq). apply list_elem_of_In in Hin.
    apply list_elem_of_fmap in Hin as (part & -> & Hpart).
    exists part. split; [done|]. by apply String.eqb_eq.
  - intros (part & Hpart & Heq). exists (toLowerCase (trim part)). split.
    + apply list_elem_of_In, list_elem_of_fmap. by exists part.
    + by apply String.eqb_eq.
Qed.

Lemma matchesQuery_spec (headers row : list jsval) (q : object) :
  matchesQuery headers row q = true <-> row_matches headers row q.
Proof.
  unfold matchesQuery, row_matches, entries. rewrite forallb_forall. split.
  - intros H key value Hin. apply list_elem_of_In in Hin.
    specialize (H _ Hin). simpl in H.
    destruct (Z.eqb_spec (indexOf headers (JStr key)) (-1)) as [|Hne]; [done|].
    destruct (indexOf_present _ _ Hne) as (col & Hcol & Heq).
    exists col. split; [by apply index_of_Some_1|].
    apply cellMatches_spec. by rewrite <- Heq.
  - intros H [key value] Hin. apply list_elem_of_In in Hin.
    destruct (H key value Hin) as (col & [Hc1 Hc2] & Hcell).
    pose proof (index_of_Some_2 headers (JStr key) col Hc1 Hc2) as Hidx.
    unfold indexOf. rewrite Hidx.
    destruct (Z.eqb_spec (Z.of_nat col) (-1)); [lia|].
    by apply cellMatches_spec.
Qed.


End MappingQuery.

Example mapping_query_john :
  (findRow MemorySheet.memory Demo.self (QMapping [("Name", JStr "john")])
     Demo.people).1
  = Ok [mkFound 2 [("Name", JStr "John, Mark"); ("Age", JStr "22");
                   ("City", JStr "Oslo")]].
Proof. reflexivity. Qed.

(** ** Headers and values of [addRow] (claim C5) *)

Section AddRow.

Lemma filter_ext_elem {A} (P Q : A -> Prop) `{!forall x, Decision (P x)}
    `{!forall x, Decision (Q x)} (l : list A) :
  (forall x, x ∈ l -> P x <-> Q x) -> filter P l = filter Q l.
Proof.
  induction l as [|a l IH]; intros Hext; [done|].
  assert (filter P l = filter Q l) as Hl.
  { apply IH. intros x Hx. apply Hext, elem_of_cons. by right. }
  destruct (decide (P a)) as [Ha|Ha].
  - rewrite !filter_cons_True; [by rewrite Hl| |done].
    apply Hext; [apply elem_of_cons; by left|done].
  - rewrite !filter_cons_False; [done| |done].
    intros HQ. apply Ha, Hext; [apply elem_of_cons; by left|done].
Qed.

(** The keys that [addRow] pushes: those absent from the header row, in
    the order of [rowData]. *)
Lemma extend_headers_spec (hs : list jsval) (ks : list string) :
  NoDup ks ->
  extend_headers hs ks = hs ++ (JStr <$> filter (fun k => JStr k ∉ hs) ks).
Proof.
  revert hs. induction ks as [|k ks IH]; intros hs Hnd.
  - by rewrite app_nil_r.
  - apply NoDup_cons in Hnd as [Hk Hnd].
    change (extend_headers hs (k :: ks))
      with (extend_headers
              (if includes hs (JStr k) then hs else hs ++ [JStr k]) ks).
    unfold includes. case_bool_decide as Hin.
    + rewrite (IH hs Hnd). rewrite filter_cons_False; [done|]. by intros [].
    + rewrite (IH _ Hnd). rewrite filter_cons_True by done.
      rewrite <- app_assoc. simpl. do 3 f_equal.
      apply filter_ext_elem. intros k' Hk'.
      rewrite not_elem_of_app, list_elem_of_singleton. split; [by intros []|].
      intros H. split; [done|]. intros [= ->]. done.
Qed.

Lemma obj_get_elem (o : object) (k : string) (v : jsval) :
  NoDup (keys o) -> (k, v) ∈ o -> obj_get o k = v.
Proof.
  unfold keys. induction o as [|[k' v'] o IH]; intros Hnd Hin.
  - by apply elem_of_nil in Hin.
  - simpl in *. apply NoDup_cons in Hnd as [Hk' Hnd].
    apply elem_of_cons in Hin as [[= -> ->]|Hin].
    + by rewrite decide_True.
    + rewrite decide_False; [by apply IH|].
      intros ->. apply Hk'. apply list_elem_of_fmap. by exists (k, v).
Qed.

Lemma obj_get_absent (o : object) (k : string) :
  k ∉ keys o -> obj_get o k = inherited k.
Proof.
  unfold keys. induction o as [|[k' v'] o IH]; intros Hk; [done|].
  simpl in *. apply not_elem_of_cons in Hk as [Hne Hk].
  rewrite decide_False by done. by apply IH.
Qed.

Lemma js_or_string (v : jsval) :
  is_string v = true -> js_or v (JStr "") = v.
Proof.
  destruct v as [| | | |s|m]; try done. intros _. unfold js_or. simpl.
  destruct (String.eqb_spec s ""); by subst.
Qed.

(** The value that the new row holds under each header. *)
Lemma row_values_spec (headers : list jsval) (rowData : object) (j : nat)
    (h : jsval) :
  NoDup (keys rowData) ->
  Forall (fun kv => is_string kv.2 = true) rowData ->
  headers !! j = Some h ->
  (forall v, (ToString h, v) ∈ rowData ->
             row_values headers rowData !! j = Some v)
  /\ (ToString h ∉ keys rowData -> ToString h ∉ Object_prototype ->
      row_values headers rowData !! j = Some (JStr ""))
  /\ (ToString h ∉ keys rowData -> ToString h ∈ Object_prototype ->
      row_values headers rowData !! j = Some (JNative (ToString h))).
Proof.
  intros Hnd Hstr Hj. unfold row_values. rewrite list_lookup_fmap, Hj. simpl.
  split_and!.
  - intros v Hin. rewrite (obj_get_elem rowData _ v Hnd Hin).
    f_equal. apply js_or_string.
    rewrite Forall_forall in Hstr. apply (Hstr _ Hin).
  - intros Habs Hown. rewrite (obj_get_absent rowData _ Habs).
    unfold inherited. by rewrite bool_decide_eq_false_2.
  - intros Habs Hinh. rewrite (obj_get_absent rowData _ Habs).
    unfold inherited. by rewrite bool_decide_eq_true_2.
Qed.

End AddRow.

(** The requests of [addRow].  For a [rowData] whose keys pass the key
    check and whose values are strings, once the read and the header write
    have resolved [addRow] sends three requests in this order: the read; a
    write of the header row, which on a sheet without headers is the keys
    of [rowData] in the order of [Object.keys] and on a sheet with headers
    is the old header row followed by the keys that it lacks, together
    with the data rows as they were read; and the append of one row.  Under
    a header that is a key of [rowData] the row holds the value of the
    key; under any other header it holds the empty string, unless the
    header is a name that every object inherits, in which case it holds the
    inherited member. *)
Theorem addRow_headers_and_values {St Raw : Type} (svc : service St Raw)
    (self : config) (w : world St) (rowData : object)
    (values : option (list (list jsval))) (s1 s2 : St) :
  NoDup (keys rowData) ->
  Forall (fun kv => is_string kv.2 = true) rowData ->
  invalidKey (keys rowData) = Ok None ->
  read_resolves svc self w values s1 ->
  let headers :=
    match values ≫= head with
    | None => JStr <$> keys rowData
    | Some old => old ++ (JStr <$> filter (fun k => JStr k ∉ old) (keys rowData))
    end in
  let written :=
    match values ≫= head with
    | None => [headers]
    | Some _ => headers :: tail (default [] values)
    end in
  on_values_update svc (spreadsheetId self) (SheetRange (sheetName self))
    "USER_ENTERED" written s1 = (Resolved tt, s2) ->
  exists row,
    trace (addRow svc self rowData w).2
    = trace w ++ [the_read self;
                  values_update (spreadsheetId self) (SheetRange (sheetName self))
                    "USER_ENTERED" written;
                  values_append (spreadsheetId self) (SheetRange (sheetName self))
                    "USER_ENTERED" [row]]
    /\ length row = length headers
    /\ forall j h,
         headers !! j = Some h ->
         (forall v, (ToString h, v) ∈ rowData -> row !! j = Some v)
         /\ (ToString h ∉ keys rowData -> ToString h ∉ Object_prototype ->
             row !! j = Some (JStr ""))
         /\ (ToString h ∉ keys rowData -> ToString h ∈ Object_prototype ->
             row !! j = Some (JNative (ToString h))).
Proof.
  intros Hnd Hstr Hk Hr headers written Hu.
  exists (row_values headers rowData). split_and!.
  - subst headers written. unfold_method. simpl. rewrite Hr. simpl.
    rewrite Hk. simpl.
    destruct (values ≫= head) as [old|] eqn:Hold; simpl.
    + rewrite (extend_headers_spec old (keys rowData) Hnd). rewrite Hu. simpl.
      destruct (on_values_append _ _ _ _ _ _) as [[rng|why] s3]; simpl.
      * destruct (parse_row_index rng); simpl; by rewrite <- !app_assoc.
      * by rewrite <- !app_assoc.
    + rewrite Hu. simpl.
      destruct (on_values_append _ _ _ _ _ _) as [[rng|why] s3]; simpl.
      * destruct (parse_row_index rng); simpl; by rewrite <- !app_assoc.
      * by rewrite <- !app_assoc.
  - unfold row_values. by rewrite length_fmap.
  - intros j h Hj. by apply row_values_spec.
Qed.

Lemma addRow_headers_and_values_witness :
  exists row,
    trace (addRow MemorySheet.memory Demo.self
             [("City", JStr "Rome"); ("Zip", JStr "00100"); ("Name", JStr "B")]
             Demo.header_only).2
    = [the_read Demo.self;
       values_update "19MoJAvrt26b" (SheetRange "test") "USER_ENTERED"
         [[JStr "Name"; JStr "Age"; JStr "City"; JStr "Zip"]];
       values_append "19MoJAvrt26b" (SheetRange "test") "USER_ENTERED" [row]]
    /\ row = [JStr "B"; JStr ""; JStr "Rome"; JStr "00100"].
Proof.
  destruct (addRow_headers_and_values MemorySheet.memory Demo.self
              Demo.header_only
              [("City", JStr "Rome"); ("Zip", JStr "00100"); ("Name", JStr "B")]
              (Some [[JStr "Name"; JStr "Age"]])
              (remote Demo.header_only)
              (MemorySheet.mkState
                 [[JStr "Name"; JStr "Age"; JStr "City"; JStr "Zip"]]
                 (MemorySheet.sheets (remote Demo.header_only))))
    as (row & Htrace & Hlen & Hrow).
  - apply (bool_decide_unpack _). by vm_compute.
  - repeat constructor.
  - reflexivity.
  - reflexivity.
  - reflexivity.
  - exists row. split; [exact Htrace|].
    vm_compute in Htrace. by injection Htrace as ->.
Defined.

(** C5.  The row that [addRow] appends does not hold the empty string
    under every header that the caller did not supply.  [rowData[header]]
    also reads what every object inherits, so that on a sheet with a
    header named [constructor] the row appended for a [rowData] without
    such a key holds the inherited function in that column. *)
Theorem addRow_inherited_header :
  let rowData := [("Name", JStr "B")] in
  let out := addRow MemorySheet.memory Demo.self rowData
               (Demo.world_of [[JStr "Name"; JStr "constructor"]]) in
  keys rowData = ["Name"]
  /\ is_ok out.1 = true
  /\ trace out.2
     = [values_get "19MoJAvrt26b" (SheetRange "test");
        values_update "19MoJAvrt26b" (SheetRange "test") "USER_ENTERED"
          [[JStr "Name"; JStr "constructor"]];
        values_append "19MoJAvrt26b" (SheetRange "test") "USER_ENTERED"
          [[JStr "B"; JNative "constructor"]]].
Proof. by vm_compute. Qed.

(** ** The patch of [updateRow] (claims C6 and C10) *)

Section Patch.

Lemma array_set_lookup_ne (a : list jsval) (i j : nat) (v x : jsval) :
  i <> j -> a !! j = Some x -> array_set a i v !! j = Some x.
Proof.
  intros Hij Hj. unfold array_set. destruct (decide (i < length a)%nat).
  - by rewrite list_lookup_insert_ne.
  - by apply lookup_app_l_Some.
Qed.

(** One turn of the loop, in terms of [index_of]. *)
Lemma patch_step (hs row : list jsval) key value es :
  patch (Some hs) row ((key, value) :: es)
  = patch (Some hs)
      (match index_of hs (JStr key) with
       | Some i => array_set row i value
       | None => row
       end) es.
Proof.
  simpl. unfold indexOf. destruct (index_of hs (JStr key)) as [i|].
  - destruct (Z.ltb_spec (-1) (Z.of_nat i)); [|lia]. by rewrite Nat2Z.id.
  - done.
Qed.

Lemma patch_total (hs : list jsval) es row :
  exists updated, patch (Some hs) row es = Ok updated.
Proof.
  revert row. induction es as [|[key value] es IH]; intros row.
  - by eexists.
  - rewrite patch_step. apply IH.
Qed.

(** A cell to which no key resolves reads as before. *)
Lemma patch_frame (hs : list jsval) es row updated (j : nat) :
  patch (Some hs) row es = Ok updated ->
  (forall key, key ∈ es.*1 -> index_of hs (JStr key) <> Some j) ->
  default JUndefined (updated !! j) = default JUndefined (row !! j).
Proof.
  revert row. induction es as [|[key value] es IH]; intros row Hp Hj.
  - by injection Hp as ->.
  - rewrite patch_step in Hp.
    rewrite (IH _ Hp); [|intros k Hk; apply Hj, elem_of_cons; by right].
    destruct (index_of hs (JStr key)) as [i|] eqn:Hi; [|done].
    apply array_set_other. intros ->.
    apply (Hj key); [apply elem_of_cons; by left|done].
Qed.

Lemma patch_keep (hs : list jsval) es row updated (j : nat) (x : jsval) :
  patch (Some hs) row es = Ok updated ->
  row !! j = Some x ->
  (forall key, key ∈ es.*1 -> index_of hs (JStr key) <> Some j) ->
  updated !! j = Some x.
Proof.
  revert row. induction es as [|[key value] es IH]; intros row Hp Hrow Hj.
  - by injection Hp as ->.
  - rewrite patch_step in Hp.
    apply (IH _ Hp); [|intros k Hk; apply Hj, elem_of_cons; by right].
    destruct (index_of hs (JStr key)) as [i|] eqn:Hi; [|done].
    apply array_set_lookup_ne; [|done]. intros ->.
    apply (Hj key); [apply elem_of_cons; by left|done].
Qed.

(** The cell to which a key resolves holds the value of that key. *)
Lemma patch_write (hs : list jsval) es row updated key value (j : nat) :
  NoDup es.*1 ->
  patch (Some hs) row es = Ok updated ->
  (key, value) ∈ es ->
  index_of hs (JStr key) = Some j ->
  updated !! j = Some value.
Proof.
  revert row. induction es as [|[k v] es IH]; intros row Hnd Hp Hin Hj.
  - by apply elem_of_nil in Hin.
  - simpl in Hnd. apply NoDup_cons in Hnd as [Hk Hnd].
    rewrite patch_step in Hp.
    apply elem_of_cons in Hin as [[= <- <-]|Hin].
    + rewrite Hj in Hp. apply (patch_keep hs es _ updated j value Hp).
      * apply array_set_same.
      * intros k' Hk' Hidx.
        apply index_of_Some_1 in Hj as [Hj _].
        apply index_of_Some_1 in Hidx as [Hidx _].
        rewrite Hj in Hidx. injection Hidx as ->. done.
    + by apply (IH _ Hnd Hp).
Qed.

(** A key that is absent from the header row takes no part in the loop. *)
Lemma patch_known (hs : list jsval) es row :
  patch (Some hs) row es
  = patch (Some hs) row (filter (fun kv => JStr kv.1 ∈ hs) es).
Proof.
  revert row. induction es as [|[key value] es IH]; intros row; [done|].
  rewrite patch_step. destruct (decide (JStr key ∈ hs)) as [Hin|Hout].
  - rewrite filter_cons_True by done. rewrite patch_step. apply IH.
  - rewrite filter_cons_False by done.
    apply index_of_None in Hout. rewrite Hout. apply IH.
Qed.

Lemma invalidKey_known (hs : list jsval) (o : object) :
  invalidKey (keys o) = Ok None ->
  invalidKey (keys (filter (fun kv => JStr kv.1 ∈ hs) o)) = Ok None.
Proof.
  unfold keys. induction o as [|[key value] o IH]; [done|]. intros Ho.
  rewrite fmap_cons in Ho. cbn [invalidKey fst] in Ho.
  destruct (key_is_invalid key) as [[]|] eqn:Hkey; [done| |done].
  destruct (decide (JStr key ∈ hs)).
  - rewrite filter_cons_True by done. rewrite fmap_cons.
    cbn [invalidKey fst]. rewrite Hkey. by apply IH.
  - rewrite filter_cons_False by done. by apply IH.
Qed.

Lemma map_update_request (self : config) (values : list (list jsval))
    (headers : list jsval) (rowData : object) (indexes : list Z) :
  head values = Some headers ->
  exists requests,
    map_result (update_request self values rowData) indexes = Ok requests
    /\ Forall2 (request_for self values headers rowData) indexes requests.
Proof.
  intros Hh. induction indexes as [|idx indexes (requests & Hm & Hf)]; simpl.
  - exists []. split; [done|constructor].
  - unfold update_request at 1. rewrite Hh.
    destruct (patch_total headers (entries rowData)
                (default [] (rows_get values (idx - 1)))) as [updated Hp].
    rewrite Hp, Hm. eexists. split; [done|].
    constructor; [|done]. by exists updated.
Qed.

Lemma map_update_request_known (self : config) (values : list (list jsval))
    (headers : list jsval) (rowData : object) (indexes : list Z) :
  head values = Some headers ->
  map_result (update_request self values rowData) indexes
  = map_result (update_request self values
                  (filter (fun kv => JStr kv.1 ∈ headers) rowData)) indexes.
Proof.
  intros Hh. induction indexes as [|idx indexes IH]; simpl; [done|].
  rewrite IH. unfold update_request, entries. rewrite Hh.
  by rewrite (patch_known headers rowData).
Qed.

End Patch.

Section UpdateRow.
Context {St Raw : Type} (svc : service St Raw) (self : config).

(** The run of [updateRow] once both checks have passed and the read has
    resolved with a header row. *)
Lemma updateRow_run (w : world St) (r : rowIndexes) (rowData : object)
    (values : list (list jsval)) (headers : list jsval) (s : St) :
  1%Z ∉ normalize r ->
  invalidKey (keys rowData) = Ok None ->
  read_resolves svc self w (Some values) s ->
  head values = Some headers ->
  exists requests,
    map_result (update_request self values rowData) (normalize r) = Ok requests
    /\ Forall2 (request_for self values headers rowData) (normalize r) requests
    /\ updateRow svc self r rowData w
       = match on_values_batchUpdate svc (spreadsheetId self) "USER_ENTERED"
                 requests s with
         | (reply, s') =>
             (match reply with
              | Resolved raw => Ok raw
              | Rejected why => Err (Wrapped UpdateRow (ServiceError why))
              end,
              mkWorld s'
                (trace w ++ [the_read self;
                             values_batchUpdate (spreadsheetId self)
                               "USER_ENTERED" requests]))
         end.
Proof.
  intros H1 Hk Hr Hh.
  destruct (map_update_request self values headers rowData (normalize r) Hh)
    as (requests & Hm & Hf).
  exists requests. split_and!; [done..|].
  unfold_method. simpl. rewrite bool_decide_eq_false_2 by done.
  rewrite Hk. simpl. rewrite Hr. simpl. rewrite Hm. simpl.
  destruct (on_values_batchUpdate _ _ _ _ _) as [[raw|why] s']; simpl;
    by rewrite <- app_assoc.
Qed.

End UpdateRow.

(** C6.  For positions that do not include 1 and a [rowData] that passes
    the key check, once the read has resolved with a header row,
    [updateRow] sends one batched write with one request per position, at
    the range that starts at column A of that position.  The row written
    there is the existing row of the position (the empty row if there is
    none) in which the cell of a column is replaced exactly when a key of
    [rowData] resolves to that column: such a cell holds the value of the
    key, and every other cell reads as it did before. *)
Theorem updateRow_sparse_patch {St Raw : Type} (svc : service St Raw)
    (self : config) (w : world St) (r : rowIndexes) (rowData : object)
    (values : list (list jsval)) (headers : list jsval) (s : St) :
  1%Z ∉ normalize r ->
  invalidKey (keys rowData) = Ok None ->
  NoDup (keys rowData) ->
  read_resolves svc self w (Some values) s ->
  head values = Some headers ->
  exists requests,
    trace (updateRow svc self r rowData w).2
    = trace w ++ [the_read self;
                  values_batchUpdate (spreadsheetId self) "USER_ENTERED" requests]
    /\ length requests = length (normalize r)
    /\ forall k rowIndex,
         normalize r !! k = Some rowIndex ->
         exists updatedValues,
           requests !! k
           = Some (mkValueRange (RowRange (sheetName self) rowIndex)
                     [updatedValues])
           /\ let existingRow := default [] (rows_get values (rowIndex - 1)) in
              (forall j : nat,
                 (forall key, key ∈ keys rowData -> ~ resolves_to headers key j) ->
                 array_get updatedValues (Z.of_nat j)
                 = array_get existingRow (Z.of_nat j))
              /\ (forall key value (j : nat),
                    (key, value) ∈ rowData -> resolves_to headers key j ->
                    array_get updatedValues (Z.of_nat j) = value).
Proof.
  intros H1 Hk Hnd Hr Hh.
  destruct (updateRow_run svc self w r rowData values headers s H1 Hk Hr Hh)
    as (requests & _ & Hf & Hrun).
  exists requests. split_and!.
  - rewrite Hrun. by destruct (on_values_batchUpdate _ _ _ _ _) as [[] ?].
  - symmetry. by eapply Forall2_length.
  - intros k rowIndex Hidx.
    destruct (Forall2_lookup_l _ _ _ _ _ Hf Hidx)
      as (d & Hd & updated & -> & Hp).
    exists updated. split; [done|]. split.
    + intros j Hj. rewrite !array_get_nat.
      apply (patch_frame headers (entries rowData) _ _ j Hp).
      intros key Hin Hres. apply (Hj key Hin). by apply index_of_Some_1.
    + intros key value j Hin [Hc1 Hc2]. rewrite array_get_nat.
      by rewrite (patch_write headers (entries rowData) _ updated key value j
                    Hnd Hp Hin (index_of_Some_2 _ _ _ Hc1 Hc2)).
Qed.

Lemma updateRow_sparse_patch_witness :
  exists requests,
    trace (updateRow MemorySheet.memory Demo.self (Single 2)
             [("Name", JStr "X")] Demo.people).2
    = [the_read Demo.self;
       values_batchUpdate "19MoJAvrt26b" "USER_ENTERED" requests]
    /\ requests
       = [mkValueRange (RowRange "test" 2) [[JStr "X"; JStr "22"; JStr "Oslo"]]].
Proof.
  destruct (updateRow_sparse_patch MemorySheet.memory Demo.self Demo.people
              (Single 2) [("Name", JStr "X")]
              (MemorySheet.grid (remote Demo.people))
              [JStr "Name"; JStr "Age"; JStr "City"] (remote Demo.people))
    as (requests & Htrace & _).
  - intros H%list_elem_of_singleton. discriminate.
  - reflexivity.
  - apply NoDup_singleton.
  - reflexivity.
  - reflexivity.
  - exists requests. split; [exact Htrace|].
    vm_compute in Htrace. by injection Htrace as ->.
Defined.

Section HeaderRow.

Lemma write_rows_head (r : nat) (values grid : list (list jsval)) :
  (0 < r)%nat ->
  default [] (head (MemorySheet.write_rows r values grid))
  = default [] (head grid).
Proof. destruct r as [|r]; [lia|]. by destruct grid. Qed.

(** A batched write whose ranges all start at a position other than 1
    leaves the header row of the stored grid as it was. *)
Lemma write_batch_head (data : list ValueRange) (grid grid' : list (list jsval)) :
  Forall (fun d => exists name rowIndex,
                     vr_range d = RowRange name rowIndex /\ rowIndex <> 1%Z) data ->
  MemorySheet.write_batch data grid = Some grid' ->
  default [] (head grid') = default [] (head grid).
Proof.
  intros Hall. revert grid. induction Hall as [|d data Hd _ IH]; intros grid.
  - simpl. by intros [= ->].
  - simpl. destruct Hd as (name & rowIndex & -> & Hne). simpl.
    destruct (Z.ltb_spec rowIndex 1); [done|].
    intros Hw. rewrite (IH _ Hw). apply write_rows_head. lia.
Qed.

End HeaderRow.

Section UpdateRowWrites.
Context {St Raw : Type} (svc : service St Raw) (self : config).

Lemma map_update_request_ranges (values : list (list jsval)) (rowData : object)
    (indexes : list Z) (requests : list ValueRange) :
  1%Z ∉ indexes ->
  map_result (update_request self values rowData) indexes = Ok requests ->
  Forall (fun d => exists rowIndex updatedValues,
            d = mkValueRange (RowRange (sheetName self) rowIndex) [updatedValues]
            /\ rowIndex <> 1%Z) requests.
Proof.
  revert requests. induction indexes as [|idx indexes IH]; intros requests H1.
  - simpl. intros [= <-]. constructor.
  - apply not_elem_of_cons in H1 as [Hne H1]. simpl.
    unfold update_request at 1.
    destruct (patch _ _ _) as [u|]; [|done].
    destruct (map_result _ indexes) as [ds|]; [|done].
    intros [= <-]. constructor; [by exists idx, u|by apply IH].
Qed.

(** Every request that a call of [updateRow] sends is the read or one
    batched write whose ranges start at positions other than 1. *)
Lemma updateRow_requests (w : world St) (r : rowIndexes) (rowData : object) :
  forall rq,
    rq ∈ drop (length (trace w)) (trace (updateRow svc self r rowData w).2) ->
    rq = the_read self
    \/ exists data,
         rq = values_batchUpdate (spreadsheetId self) "USER_ENTERED" data
         /\ Forall (fun d => exists rowIndex updatedValues,
                      d = mkValueRange (RowRange (sheetName self) rowIndex)
                            [updatedValues]
                      /\ rowIndex <> 1%Z) data.
Proof.
  intros rq. unfold_method. simpl. case_bool_decide as H1; simpl.
  { rewrite drop_all. by intros ?%elem_of_nil. }
  destruct (invalidKey (keys rowData)) as [[key|]|e]; simpl;
    try (rewrite drop_all; by intros ?%elem_of_nil).
  destruct (on_values_get _ _ _ _) as [[[values|]|why] s]; simpl;
    try (rewrite drop_app_length; intros ->%list_elem_of_singleton; by left).
  destruct (map_result _ _) as [requests|e] eqn:Hm; simpl;
    try (rewrite drop_app_length; intros ->%list_elem_of_singleton; by left).
  destruct (on_values_batchUpdate _ _ _ _ _) as [[raw|why] s']; simpl;
    rewrite <- app_assoc, drop_app_length;
    (intros [->|Hrq]%elem_of_cons; [by left|]);
    apply list_elem_of_singleton in Hrq as ->; right;
    exists requests; (split; [done|]);
    by apply (map_update_request_ranges values rowData (normalize r)).
Qed.

End UpdateRowWrites.

(** C10.  For a [rowData] that passes the key check, once the read has
    resolved with a header row, the call runs exactly as it does when the
    keys that the header row lacks are removed from [rowData], so that such
    a key writes no cell, and the call fails only when the positions
    include 1 or when the service rejects the batched write.  And for all
    arguments, the only write that [updateRow] sends is one batched write
    whose ranges all start at column A of a position other than 1, a write
    that leaves the header row as it was. *)
Theorem updateRow_ignores_unknown_keys {St Raw : Type} (svc : service St Raw)
    (self : config) (w : world St) (r : rowIndexes) (rowData : object) :
  let out := updateRow svc self r rowData w in
  (forall values headers s,
     invalidKey (keys rowData) = Ok None ->
     read_resolves svc self w (Some values) s ->
     head values = Some headers ->
     out = updateRow svc self r
             (filter (fun kv => JStr kv.1 ∈ headers) rowData) w
     /\ forall e, out.1 = Err e ->
          (1%Z ∈ normalize r /\ e = Wrapped UpdateRow HeaderRowIndex)
          \/ exists why, e = Wrapped UpdateRow (ServiceError why))
  /\ (forall rq,
        rq ∈ drop (length (trace w)) (trace out.2) ->
        rq = the_read self
        \/ exists data,
             rq = values_batchUpdate (spreadsheetId self) "USER_ENTERED" data
             /\ Forall (fun d => exists rowIndex updatedValues,
                          d = mkValueRange (RowRange (sheetName self) rowIndex)
                                [updatedValues]
                          /\ rowIndex <> 1%Z) data
             /\ forall grid grid',
                  MemorySheet.write_batch data grid = Some grid' ->
                  default [] (head grid') = default [] (head grid)).
Proof.
  intros out. subst out. split.
  - intros values headers s Hk Hr Hh.
    destruct (decide (1%Z ∈ normalize r)) as [H1|H1].
    + unfold_method. simpl. rewrite !bool_decide_eq_true_2 by done. simpl.
      split; [done|]. intros e [= <-]. by left.
    + destruct (updateRow_run svc self w r rowData values headers s H1 Hk Hr Hh)
        as (requests & Hm & _ & Hrun).
      destruct (updateRow_run svc self w r
                  (filter (fun kv => JStr kv.1 ∈ headers) rowData)
                  values headers s H1 (invalidKey_known headers rowData Hk) Hr Hh)
        as (requests' & Hm' & _ & Hrun').
      rewrite <- (map_update_request_known self values headers rowData
                    (normalize r) Hh) in Hm'.
      assert (requests' = requests) as -> by congruence.
      rewrite Hrun, Hrun'. split; [done|].
      intros e. destruct (on_values_batchUpdate _ _ _ _ _) as [[raw|why] s'];
        simpl; [done|]. intros [= <-]. right. by exists why.
  - intros rq Hrq.
    destruct (updateRow_requests svc self w r rowData rq Hrq)
      as [->|(data & -> & Hall)]; [by left|right].
    exists data. split_and!; [done..|].
    intros grid grid'. apply write_batch_head.
    eapply Forall_impl; [exact Hall|].
    intros d (idx & u & -> & Hne). by exists (sheetName self), idx.
Qed.

Lemma updateRow_ignores_unknown_keys_witness :
  updateRow MemorySheet.memory Demo.self (Several [2; 4]%Z)
    [("Age", JStr "40"); ("Zip", JStr "00100")] Demo.people
  = updateRow MemorySheet.memory Demo.self (Several [2; 4]%Z)
      [("Age", JStr "40")] Demo.people.
Proof.
  refine (proj1 (proj1 (updateRow_ignores_unknown_keys MemorySheet.memory
                          Demo.self Demo.people (Several [2; 4]%Z)
                          [("Age", JStr "40"); ("Zip", JStr "00100")])
                   (MemorySheet.grid (remote Demo.people))
                   [JStr "Name"; JStr "Age"; JStr "City"]
                   (remote Demo.people) _ _ _)).
  - reflexivity.
  - reflexivity.
  - reflexivity.
Defined.

Example updateRow_unknown_key_run :
  (updateRow MemorySheet.memory Demo.self (Single 3)
     [("Zip", JStr "00100"); ("City", JStr "Rome")] Demo.people).1
  = Ok [mkValueRange (RowRange "test" 3)
          [[JStr "Johnny"; JStr "25"; JStr "Rome"]]].
Proof. reflexivity. Qed.

(** ** Sorting and deleting (claim C8) *)

Section DeleteRow.

Lemma insert_desc_perm (a : Z) (l : list Z) : insert_desc a l ≡ₚ a :: l.
Proof.
  induction l as [|b l IH]; simpl; [done|].
  destruct (b - a <=? 0)%Z; [done|]. rewrite IH. apply Permutation_swap.
Qed.

Lemma sort_desc_perm (l : list Z) : sort_desc l ≡ₚ l.
Proof.
  induction l as [|a l IH]; simpl; [done|].
  rewrite insert_desc_perm. by rewrite IH.
Qed.

Lemma insert_desc_sorted (a : Z) (l : list Z) :
  StronglySorted (fun x y => (y <= x)%Z) l ->
  StronglySorted (fun x y => (y <= x)%Z) (insert_desc a l).
Proof.
  induction 1 as [|b l Hs IH Hb]; simpl.
  - repeat constructor.
  - destruct (Z.leb_spec (b - a) 0) as [Hle|Hgt].
    + constructor; [by constructor|]. constructor; [lia|].
      eapply Forall_impl; [exact Hb|]. simpl. intros; lia.
    + constructor; [done|]. rewrite insert_desc_perm.
      constructor; [lia|done].
Qed.

Lemma sort_desc_sorted (l : list Z) :
  StronglySorted (fun x y => (y <= x)%Z) (sort_desc l).
Proof.
  induction l as [|a l IH]; simpl; [constructor|by apply insert_desc_sorted].
Qed.

Lemma sorted_descending (l : list Z) :
  StronglySorted (fun x y => (y <= x)%Z) l -> descending l.
Proof.
  induction 1 as [|a l Hs IH Ha]; intros i j x y Hij Hi Hj.
  - done.
  - destruct j as [|j]; [lia|]. simpl in Hj. destruct i as [|i]; simpl in Hi.
    + injection Hi as ->. rewrite Forall_forall in Ha.
      apply Ha. by eapply list_elem_of_lookup_2.
    + apply (IH i j); [lia|done..].
Qed.

Lemma sort_desc_descending (l : list Z) : descending (sort_desc l).
Proof. apply sorted_descending, sort_desc_sorted. Qed.

(** Any descending arrangement of the positions is the one computed. *)
Lemma sort_desc_unique (l l' : list Z) :
  l' ≡ₚ l -> StronglySorted (fun x y => (y <= x)%Z) l' -> l' = sort_desc l.
Proof.
  intros Hperm Hsorted.
  apply (StronglySorted_unique_strong (fun x y => (y <= x)%Z)).
  - intros x y _ _ Hxy Hyx. lia.
  - done.
  - apply sort_desc_sorted.
  - by rewrite sort_desc_perm.
Qed.

(** A delete at or below the [n]-th row leaves the first [n] rows alone. *)
Lemma delete_rows_prefix (d : DimensionRange) (g : list (list jsval)) (n : nat) :
  (n <= Z.to_nat (startIndex d))%nat ->
  (Z.to_nat (startIndex d) <= Z.to_nat (endIndex d))%nat ->
  take n (MemorySheet.delete_rows d g) = take n g.
Proof.
  intros Hn Hse. unfold MemorySheet.delete_rows.
  destruct (decide (Z.to_nat (startIndex d) <= length g)%nat) as [Hlen|Hlen].
  - rewrite take_app_le by (rewrite length_take; lia).
    rewrite take_take. f_equal. lia.
  - rewrite (take_ge g (Z.to_nat (startIndex d))) by lia.
    rewrite (drop_ge g) by lia. by rewrite app_nil_r.
Qed.

Lemma delete_batch_prefix (id : Z) (ps : list Z) (g : list (list jsval))
    (n : nat) :
  Forall (fun p => (Z.of_nat n <= p - 1)%Z) ps ->
  take n (MemorySheet.delete_batch (delete_request id <$> ps) g) = take n g.
Proof.
  intros Hall. revert g. induction Hall as [|p ps Hp _ IH]; intros g; [done|].
  simpl. unfold MemorySheet.delete_batch in *. simpl. rewrite IH.
  apply delete_rows_prefix; simpl; lia.
Qed.

End DeleteRow.

(** C8.  The argument of [deleteRow] is a single position [n], which
    stands for the sequence [[n]], or a sequence of positions, taken as it
    is.  Once the lookup of the sheets has resolved with a sheet of the
    configured name and the batched delete has resolved: [deleteRow] sends,
    after the lookup, one batched structural delete with one request per
    position; the requests follow the positions in descending order, a
    rearrangement of that sequence; the request for position [p]
    covers the rows from [p - 1] inclusive to [p] exclusive; the count
    returned is the number of replies, hence the number of positions when
    the service replies once per request.  When the requests are applied
    one after the other, the requests before the one for position [p]
    leave the rows above [p] in place, and, if no position is given
    twice, the row at [p] as well. *)
Theorem deleteRow_descending_batch {St Raw : Type} (svc : service St Raw)
    (self : config) (w : world St) (r : rowIndexes) (positions : list Z)
    (sheets : list (string * Z)) (s1 s2 : St) (i : nat) (title : string)
    (id : Z) (replies : list unit) :
  match r with
  | Single n => positions = [n]
  | Several l => positions = l
  end ->
  on_spreadsheets_get svc (spreadsheetId self) (remote w) = (Resolved sheets, s1) ->
  list_find (fun sh => sh.1 = sheetName self) sheets = Some (i, (title, id)) ->
  let sorted := sort_desc positions in
  let requests := delete_request id <$> sorted in
  on_spreadsheets_batchUpdate svc (spreadsheetId self) requests s1
  = (Resolved replies, s2) ->
  (sorted ≡ₚ positions /\ descending sorted)
  /\ (forall k p, sorted !! k = Some p ->
        requests !! k = Some (mkDimensionRange id "ROWS" (p - 1) p))
  /\ deleteRow svc self r w
     = (Ok (Z.of_nat (length replies)),
        mkWorld s2 (trace w ++ [spreadsheets_get (spreadsheetId self);
                                spreadsheets_batchUpdate (spreadsheetId self)
                                  requests]))
  /\ (length replies = length requests ->
      (deleteRow svc self r w).1 = Ok (Z.of_nat (length positions)))
  /\ (forall grid k p,
        sorted !! k = Some p -> (1 <= p)%Z ->
        let before := MemorySheet.delete_batch (take k requests) grid in
        take (Z.to_nat (p - 1)) before = take (Z.to_nat (p - 1)) grid
        /\ (NoDup positions ->
            before !! Z.to_nat (p - 1) = grid !! Z.to_nat (p - 1))).
Proof.
  intros Hshape.
  assert (normalize r = positions) as Hnorm by (by destruct r).
  clear Hshape. subst positions.
  intros Hget Hfind sorted requests Hbatch.
  assert (deleteRow svc self r w
          = (Ok (Z.of_nat (length replies)),
             mkWorld s2 (trace w ++ [spreadsheets_get (spreadsheetId self);
                                     spreadsheets_batchUpdate (spreadsheetId self)
                                       requests]))) as Hrun.
  { unfold_method. simpl. rewrite Hget. simpl. rewrite Hfind. simpl.
    fold sorted. fold requests. rewrite Hbatch. simpl.
    by rewrite <- app_assoc. }
  split_and!.
  - apply sort_desc_perm.
  - apply sort_desc_descending.
  - intros k p Hk. subst requests. by rewrite list_lookup_fmap, Hk.
  - done.
  - intros Hlen. rewrite Hrun. simpl. rewrite Hlen. subst requests.
    rewrite length_fmap. subst sorted. by rewrite (sort_desc_perm (normalize r)).
  - intros grid k p Hk Hp before.
    assert (forall p', p' ∈ take k sorted -> (p <= p')%Z) as Hge.
    { intros p' Hin. apply list_elem_of_lookup in Hin as [k' Hk'].
      apply lookup_take_Some in Hk' as [Hk' Hlt].
      apply (sort_desc_descending (normalize r) k' k p' p Hlt Hk' Hk). }
    subst before requests. rewrite <- fmap_take. split.
    + apply delete_batch_prefix. apply Forall_forall. intros p' Hin.
      specialize (Hge p' Hin). lia.
    + intros Hnd.
      assert (Forall (fun p' => (Z.of_nat (Z.to_nat p) <= p' - 1)%Z)
                (take k sorted)) as Hall.
      { apply Forall_forall. intros p' Hin. specialize (Hge p' Hin).
        assert (p' <> p); [|lia]. intros ->.
        assert (NoDup sorted) as Hnd'.
        { subst sorted. by rewrite (sort_desc_perm (normalize r)). }
        rewrite <- (take_drop k sorted) in Hnd'.
        apply NoDup_app in Hnd' as (_ & Hdis & _). apply (Hdis p Hin).
        apply list_elem_of_lookup. exists 0%nat.
        by rewrite lookup_drop, Nat.add_0_r. }
      pose proof (delete_batch_prefix id (take k sorted) grid (Z.to_nat p) Hall)
        as Hpre.
      rewrite <- (lookup_take_lt _ (Z.to_nat p)) by lia.
      rewrite Hpre. apply lookup_take_lt. lia.
Qed.

Lemma deleteRow_descending_batch_witness :
  deleteRow MemorySheet.memory Demo.self (Several [2; 4]%Z) Demo.people
  = (Ok 2%Z,
     mkWorld (MemorySheet.mkState
                [[JStr "Name"; JStr "Age"; JStr "City"]; [JStr "Johnny"; JStr "25"]]
                (MemorySheet.sheets (remote Demo.people)))
       [spreadsheets_get "19MoJAvrt26b";
        spreadsheets_batchUpdate "19MoJAvrt26b"
          [mkDimensionRange 7 "ROWS" 3 4; mkDimensionRange 7 "ROWS" 1 2]])
  /\ deleteRow MemorySheet.memory Demo.self (Single 3) Demo.people
     = (Ok 1%Z,
        mkWorld (MemorySheet.mkState
                   [[JStr "Name"; JStr "Age"; JStr "City"];
                    [JStr "John, Mark"; JStr "22"; JStr "Oslo"];
                    [JStr "Alex"; JStr "30"; JStr "Rome"]]
                   (MemorySheet.sheets (remote Demo.people)))
          [spreadsheets_get "19MoJAvrt26b";
           spreadsheets_batchUpdate "19MoJAvrt26b"
             [mkDimensionRange 7 "ROWS" 2 3]]).
Proof.
  split.
  - refine (proj1 (proj2 (proj2 (deleteRow_descending_batch MemorySheet.memory
              Demo.self Demo.people (Several [2; 4]%Z) [2; 4]%Z
              (MemorySheet.sheets (remote Demo.people)) (remote Demo.people)
              (MemorySheet.mkState
                 [[JStr "Name"; JStr "Age"; JStr "City"]; [JStr "Johnny"; JStr "25"]]
                 (MemorySheet.sheets (remote Demo.people)))
              1%nat "test" 7%Z [tt; tt] _ _ _ _)))).
    + reflexivity.
    + reflexivity.
    + reflexivity.
    + reflexivity.
  - refine (proj1 (proj2 (proj2 (deleteRow_descending_batch MemorySheet.memory
              Demo.self Demo.people (Single 3) [3]%Z
              (MemorySheet.sheets (remote Demo.people)) (remote Demo.people)
              (MemorySheet.mkState
                 [[JStr "Name"; JStr "Age"; JStr "City"];
                  [JStr "John, Mark"; JStr "22"; JStr "Oslo"];
                  [JStr "Alex"; JStr "30"; JStr "Rome"]]
                 (MemorySheet.sheets (remote Demo.people)))
              1%nat "test" 7%Z [tt] _ _ _ _)))).
    + reflexivity.
    + reflexivity.
    + reflexivity.
    + reflexivity.
Defined.

(** ** The scenario of two additions on an empty sheet *)

Example addRow_twice :
  let w1 := (addRow MemorySheet.memory Demo.self [("Name", JStr "A")]
               Demo.empty_sheet) in
  let w2 := (addRow MemorySheet.memory Demo.self
               [("Name", JStr "B"); ("Age", JStr "5")] w1.2) in
  w1.1 = Ok (mkAdded 2 [("Name", JStr "A")])
  /\ MemorySheet.grid (remote w1.2) = [[JStr "Name"]; [JStr "A"]]
  /\ w2.1 = Ok (mkAdded 3 [("Name", JStr "B"); ("Age", JStr "5")])
  /\ MemorySheet.grid (remote w2.2)
     = [[JStr "Name"; JStr "Age"]; [JStr "A"]; [JStr "B"; JStr "5"]].
Proof. by vm_compute. Qed.

(** * Further properties of the methods *)

(** ** [findRow] *)

Section ObjectFacts.








End ObjectFacts.

Section FindRowFacts.
Context {St Raw : Type} (svc : service St Raw) (self : config).

(** X1.  Whatever the query and whatever the service answers, [findRow]
    sends exactly one request, the read of the value range; it never sends
    a write. *)
Theorem findRow_reads_once (q : query) (w : world St) :
  trace (findRow svc self q w).2 = trace w ++ [the_read self].
Proof.
  unfold_method. simpl.
  destruct (on_values_get _ _ _ _) as [[[[|headers rest]|]|why] s]; simpl;
    try done.
  destruct q as [n|m]; simpl.
  - by destruct (find_by_number _ _ _).
  - by destruct (scan _ _ _ _ _).
Qed.


(** X3.  A position that is zero or negative is not answered with the
    empty array: once the read has resolved with a header row that has at
    least one column, [findRow] fails with a [TypeError], because the row
    before the first one is read. *)
Theorem findRow_nonpositive_number (w : world St) (n : Z)
    (header : jsval) (headers : list jsval) (rest : list (list jsval)) (s : St) :
  read_resolves svc self w (Some ((header :: headers) :: rest)) s ->
  (n <= 0)%Z ->
  (findRow svc self (QNumber n) w).1 = Err (Wrapped FindRow TypeError).
Proof.
  intros Hr Hn. unfold_method. simpl. rewrite Hr. simpl. unfold find_by_number.
  destruct (Z.eqb_spec n 1); [lia|].
  destruct (Z.leb_spec n (Z.of_nat (length ((header :: headers) :: rest))));
    [|simpl in *; lia].
  unfold rows_get. by destruct (Z.ltb_spec (n - 1) 0); [|lia].
Qed.

Lemma matching_sorted headers q rows (index : Z) :
  StronglySorted Z.lt (rowIndex <$> matching headers q rows index)
  /\ Forall (fun r => (index + 1 <= rowIndex r
                       <= index + Z.of_nat (length rows))%Z)
       (matching headers q rows index).
Proof.
  revert index. induction rows as [|row rows IH]; intros index; simpl.
  - split; constructor.
  - destruct (IH (index + 1)%Z) as [Hs Hb].
    assert (Forall (fun r => (index + 1 <= rowIndex r
                              <= index + Z.of_nat (S (length rows)))%Z)
              (matching headers q rows (index + 1))) as Hb'.
    { eapply Forall_impl; [exact Hb|]. simpl. intros; lia. }
    destruct (matchesQuery headers row q); simpl; [|done].
    split.
    + constructor; [done|]. apply Forall_fmap.
      eapply Forall_impl; [exact Hb|]. simpl. intros; lia.
    + constructor; [simpl; lia|done].
Qed.

Lemma findRow_mapping_Ok (w : world St) (q : object)
    (values : option (list (list jsval))) (s : St) (results : list found) :
  read_resolves svc self w values s ->
  (findRow svc self (QMapping q) w).1 = Ok results ->
  exists headers, results = matching headers q (tail (default [] values)) 1.
Proof.
  intros Hr. unfold_method. simpl. rewrite Hr. simpl.
  destruct values as [[|headers rest]|]; simpl.
  - intros [= <-]. by exists [].
  - change (0 + 1)%Z with 1%Z. exists headers.
    destruct rest as [|row rest]; [by injection H as <-|].
    destruct (invalidKey (keys q)) as [[key|]|e] eqn:Hk.
    + by rewrite (scan_invalid headers q row rest 1 [] key Hk) in H.
    + rewrite (scan_valid headers q (row :: rest) 1 [] Hk) in H by lia.
      by injection H as <-.
    + simpl in H. by rewrite Hk in H.
  - intros [= <-]. by exists [].
Qed.

(** X4.  Whenever a mapping query returns, its results are in sheet
    order: the positions are strictly increasing, each one between 2 and
    the number of rows of the value range, so that the header row is never
    a result and no row is returned twice. *)
Theorem findRow_mapping_in_sheet_order (w : world St) (q : object)
    (values : option (list (list jsval))) (s : St) (results : list found) :
  read_resolves svc self w values s ->
  (findRow svc self (QMapping q) w).1 = Ok results ->
  StronglySorted Z.lt (rowIndex <$> results)
  /\ Forall (fun r => (2 <= rowIndex r
                       <= Z.of_nat (length (default [] values)))%Z) results.
Proof.
  intros Hr Hres.
  destruct (findRow_mapping_Ok w q values s results Hr Hres) as [headers ->].
  destruct (matching_sorted headers q (tail (default [] values)) 1) as [Hs Hb].
  split; [done|]. eapply Forall_impl; [exact Hb|]. simpl. intros r Hrb.
  destruct values as [[|hs rest]|]; simpl in *; lia.
Qed.

Lemma matching_empty_query headers rows (z : Z) :
  length (matching headers [] rows z) = length rows
  /\ forall (i : nat) row,
       rows !! i = Some row ->
       matching headers [] rows z !! i
       = Some (mkFound (z + Z.of_nat i + 1) (fill_data headers 0 row [])).
Proof.
  revert z. induction rows as [|row0 rows IH]; intros z; simpl; [done|].
  destruct (IH (z + 1)%Z) as [Hlen Hlook]. split; [by rewrite Hlen|].
  intros [|i] row Hi; simpl in *.
  - injection Hi as ->. do 2 f_equal. lia.
  - rewrite (Hlook i row Hi). do 2 f_equal. lia.
Qed.

(** X5.  The empty mapping query is satisfied by every data row: once the
    read has resolved, [findRow({})] returns all the rows below the header
    row, each with its position. *)
Theorem findRow_empty_mapping (w : world St) (headers : list jsval)
    (rest : list (list jsval)) (s : St) :
  read_resolves svc self w (Some (headers :: rest)) s ->
  exists results,
    (findRow svc self (QMapping []) w).1 = Ok results
    /\ length results = length rest
    /\ forall (i : nat) row,
         rest !! i = Some row ->
         results !! i
         = Some (mkFound (Z.of_nat i + 2) (fill_data headers 0 row [])).
Proof.
  intros Hr. exists (matching headers [] rest 1).
  destruct (matching_empty_query headers rest 1) as [Hlen Hlook]. split_and!.
  - unfold_method. simpl. rewrite Hr. simpl. change (0 + 1)%Z with 1%Z.
    by rewrite (scan_valid headers [] rest 1 []).
  - done.
  - intros i row Hi. rewrite (Hlook i row Hi). do 2 f_equal. lia.
Qed.

End FindRowFacts.


Lemma findRow_nonpositive_number_witness :
  (findRow MemorySheet.memory Demo.self (QNumber 0) Demo.people).1
  = Err (Wrapped FindRow TypeError).
Proof.
  apply (findRow_nonpositive_number MemorySheet.memory Demo.self Demo.people 0
           (JStr "Name") [JStr "Age"; JStr "City"]
           (tail (MemorySheet.grid (remote Demo.people)))
           (remote Demo.people)).
  - reflexivity.
  - lia.
Defined.

Lemma findRow_mapping_in_sheet_order_witness :
  StronglySorted Z.lt
    (rowIndex <$> [mkFound 2 [("Name", JStr "John, Mark"); ("Age", JStr "22");
                              ("City", JStr "Oslo")]])
  /\ Forall (fun r => (2 <= rowIndex r <= 4)%Z)
       [mkFound 2 [("Name", JStr "John, Mark"); ("Age", JStr "22");
                   ("City", JStr "Oslo")]].
Proof.
  apply (findRow_mapping_in_sheet_order MemorySheet.memory Demo.self Demo.people
           [("Name", JStr "john")]
           (Some (MemorySheet.grid (remote Demo.people)))
           (remote Demo.people)).
  - reflexivity.
  - reflexivity.
Defined.

Lemma findRow_empty_mapping_witness :
  exists results,
    (findRow MemorySheet.memory Demo.self (QMapping []) Demo.people).1 = Ok results
    /\ length results = 3%nat
    /\ forall (i : nat) row,
         tail (MemorySheet.grid (remote Demo.people)) !! i = Some row ->
         results !! i
         = Some (mkFound (Z.of_nat i + 2)
                   (fill_data [JStr "Name"; JStr "Age"; JStr "City"] 0 row [])).
Proof.
  apply (findRow_empty_mapping MemorySheet.memory Demo.self Demo.people
           [JStr "Name"; JStr "Age"; JStr "City"]
           (tail (MemorySheet.grid (remote Demo.people)))
           (remote Demo.people)).
  reflexivity.
Defined.

(** ** The predicate on cells *)

Section StringFacts.

Lemma lower_eqb_comma (x : ascii) :
  Ascii.eqb (char_toLowerCase x) "," = Ascii.eqb x ",".
Proof. by destruct x as [[] [] [] [] [] [] [] []]. Qed.

Lemma lower_is_space (x : ascii) :
  Ascii.is_space (char_toLowerCase x) = Ascii.is_space x.
Proof. by destruct x as [[] [] [] [] [] [] [] []]. Qed.

Lemma lower_upper (x : ascii) :
  char_toLowerCase (char_toUpperCase x) = char_toLowerCase x.
Proof. by destruct x as [[] [] [] [] [] [] [] []]. Qed.

Lemma lower_lower (x : ascii) :
  char_toLowerCase (char_toLowerCase x) = char_toLowerCase x.
Proof. by destruct x as [[] [] [] [] [] [] [] []]. Qed.

Lemma toLowerCase_toUpperCase (s : string) :
  toLowerCase (toUpperCase s) = toLowerCase s.
Proof. induction s as [|c s IH]; simpl; [done|]. by rewrite lower_upper, IH. Qed.

Lemma toLowerCase_idemp (s : string) :
  toLowerCase (toLowerCase s) = toLowerCase s.
Proof. induction s as [|c s IH]; simpl; [done|]. by rewrite lower_lower, IH. Qed.

Lemma split_nonempty (sep : ascii) (s : string) : split sep s <> [].
Proof.
  induction s as [|c s IH]; simpl; [done|].
  destruct (Ascii.eqb c sep); [done|]. by destruct (split sep s).
Qed.

Lemma split_toLowerCase (s : string) :
  split "," (toLowerCase s) = toLowerCase <$> split "," s.
Proof.
  induction s as [|c s IH]; simpl; [done|].
  rewrite lower_eqb_comma, IH.
  destruct (Ascii.eqb c ","); [done|].
  pose proof (split_nonempty "," s). by destruct (split "," s).
Qed.

Lemma trimStart_toLowerCase (s : string) :
  trimStart (toLowerCase s) = toLowerCase (trimStart s).
Proof.
  induction s as [|c s IH]; simpl; [done|].
  rewrite lower_is_space. by destruct (Ascii.is_space c).
Qed.

Lemma rev_app_toLowerCase (a b : string) :
  String.rev_app (toLowerCase a) (toLowerCase b)
  = toLowerCase (String.rev_app a b).
Proof.
  revert b. induction a as [|c a IH]; intros b; simpl; [done|].
  by rewrite <- IH.
Qed.

Lemma rev_toLowerCase (s : string) :
  String.rev (toLowerCase s) = toLowerCase (String.rev s).
Proof. apply (rev_app_toLowerCase s ""). Qed.

Lemma trim_toLowerCase (s : string) :
  trim (toLowerCase s) = toLowerCase (trim s).
Proof.
  unfold trim, trimEnd.
  by rewrite trimStart_toLowerCase, rev_toLowerCase, trimStart_toLowerCase,
    rev_toLowerCase.
Qed.

(** The parts against which a query value is compared depend on the cell
    only through its lowercased text. *)
Lemma cellValues_lower (c : string) :
  (fun p => toLowerCase (trim p)) <$> split "," c
  = trim <$> split "," (toLowerCase c).
Proof.
  rewrite split_toLowerCase, <- list_fmap_compose. apply list_fmap_ext.
  intros i p _. simpl. by rewrite trim_toLowerCase.
Qed.

Lemma has_char_rev_app (c : ascii) (a b : string) :
  has_char c (String.rev_app a b) = has_char c a || has_char c b.
Proof.
  revert b. induction a as [|x a IH]; intros b; simpl; [done|].
  rewrite IH. simpl. destruct (Ascii.eqb x c), (has_char c a); done.
Qed.

Lemma has_char_rev (c : ascii) (s : string) :
  has_char c (String.rev s) = has_char c s.
Proof.
  unfold String.rev. rewrite has_char_rev_app. simpl. apply orb_false_r.
Qed.

Lemma has_char_trimStart (c : ascii) (s : string) :
  has_char c s = false -> has_char c (trimStart s) = false.
Proof.
  induction s as [|x s IH]; simpl; [done|].
  intros [Hx Hs]%orb_false_iff. destruct (Ascii.is_space x); [by apply IH|].
  simpl. by rewrite Hx, Hs.
Qed.

Lemma has_char_trim (c : ascii) (s : string) :
  has_char c s = false -> has_char c (trim s) = false.
Proof.
  intros H. unfold trim, trimEnd. rewrite has_char_rev.
  apply has_char_trimStart. rewrite has_char_rev. by apply has_char_trimStart.
Qed.

Lemma has_comma_toLowerCase (s : string) :
  has_char "," (toLowerCase s) = has_char "," s.
Proof.
  induction s as [|x s IH]; simpl; [done|]. by rewrite lower_eqb_comma, IH.
Qed.

Lemma split_parts_no_sep (sep : ascii) (s p : string) :
  p ∈ split sep s -> has_char sep p = false.
Proof.
  revert p. induction s as [|x s IH]; intros p; simpl.
  - by intros ->%list_elem_of_singleton.
  - destruct (Ascii.eqb x sep) eqn:Hx.
    + intros [->|Hin]%elem_of_cons; [done|by apply IH].
    + pose proof (split_nonempty sep s).
      destruct (split sep s) as [|p0 ps]; [done|].
      intros [->|Hin]%elem_of_cons.
      * simpl. rewrite Hx. apply IH, elem_of_cons. by left.
      * apply IH, elem_of_cons. by right.
Qed.

End StringFacts.

(** X6.  A query value that contains a comma matches no cell at all: the
    cell is cut at its commas before the comparison, so that even a cell
    with exactly the text of the query value is not matched; a query with
    such a value never returns a row. *)
Theorem comma_in_query_value_never_matches (q : object) (key v : string) :
  (key, JStr v) ∈ q ->
  has_char "," v = true ->
  (forall cell, cellMatches cell (JStr v) = false)
  /\ (forall headers row, matchesQuery headers row q = false)
  /\ (forall headers rows index, matching headers q rows index = []).
Proof.
  intros Hin Hcomma.
  assert (forall cell, cellMatches cell (JStr v) = false) as Hcell.
  { intros cell. destruct (cellMatches cell (JStr v)) eqn:Hm; [|done].
    apply cellMatches_spec in Hm. destruct cell as [| | | |c|m]; try done.
    destruct Hm as (part & Hpart & Heq).
    apply split_parts_no_sep in Hpart. apply has_char_trim in Hpart.
    rewrite <- has_comma_toLowerCase, Heq, has_comma_toLowerCase in Hpart.
    congruence. }
  assert (forall headers row, matchesQuery headers row q = false) as Hrow.
  { intros headers row. destruct (matchesQuery headers row q) eqn:Hm; [|done].
    apply matchesQuery_spec in Hm. destruct (Hm key (JStr v) Hin)
      as (col & _ & Hsat).
    apply cellMatches_spec in Hsat. by rewrite Hcell in Hsat. }
  split_and!; [done..|].
  intros headers rows. induction rows as [|row rows IH]; intros index;
    simpl; [done|]. by rewrite Hrow, IH.
Qed.

Lemma comma_in_query_value_never_matches_witness :
  cellMatches (JStr "John, Mark") (JStr "John, Mark") = false.
Proof.
  refine (proj1 (comma_in_query_value_never_matches
                   [("Name", JStr "John, Mark")] "Name" "John, Mark" _ _)
                (JStr "John, Mark")).
  - apply list_elem_of_singleton. reflexivity.
  - reflexivity.
Defined.

(** X7.  The predicate compares text without regard to case, on both
    sides: whether a string cell satisfies a string query value depends
    only on the lowercased cell and the lowercased value.  In particular
    the upper-cased value matches the same cells as the value itself. *)
Theorem cell_match_ignores_case (c1 c2 v1 v2 : string) :
  toLowerCase c1 = toLowerCase c2 ->
  toLowerCase v1 = toLowerCase v2 ->
  cellMatches (JStr c1) (JStr v1) = cellMatches (JStr c2) (JStr v2).
Proof.
  intros Hc Hv. unfold cellMatches.
  by rewrite !cellValues_lower, Hc, Hv.
Qed.

Lemma cell_match_ignores_case_witness :
  cellMatches (JStr "John, Mark") (JStr "MARK")
  = cellMatches (JStr "JOHN, MARK") (JStr "mark").
Proof.
  apply cell_match_ignores_case; reflexivity.
Defined.

Section ReverseFacts.

Lemma append_empty_r (s : string) : s +:+ "" = s.
Proof. induction s as [|c s IH]; [done|]. by rewrite append_cons, IH. Qed.

Lemma append_assoc (a b c : string) : (a +:+ b) +:+ c = a +:+ (b +:+ c).
Proof. induction a as [|x a IH]; [done|]. by rewrite !append_cons, IH. Qed.

Lemma rev_app_append (a b : string) :
  String.rev_app a b = String.rev a +:+ b.
Proof.
  unfold String.rev. revert b. induction a as [|x a IH]; intros b; [done|].
  simpl. rewrite (IH (String x b)), (IH (String x "")).
  by rewrite append_assoc.
Qed.

Lemma rev_cons (x : ascii) (a : string) :
  String.rev (String x a) = String.rev a +:+ String x "".
Proof. unfold String.rev at 1. simpl. apply rev_app_append. Qed.

Lemma rev_append (a b : string) :
  String.rev (a +:+ b) = String.rev b +:+ String.rev a.
Proof.
  induction a as [|x a IH].
  - by rewrite append_nil, append_empty_r.
  - by rewrite append_cons, !rev_cons, IH, append_assoc.
Qed.

Lemma rev_involutive (s : string) : String.rev (String.rev s) = s.
Proof.
  induction s as [|x s IH]; [done|].
  by rewrite rev_cons, rev_append, IH.
Qed.

Lemma trimStart_suffix (s : string) :
  exists pre, s = pre +:+ trimStart s.
Proof.
  induction s as [|x s [pre IH]]; simpl; [by exists ""|].
  destruct (Ascii.is_space x).
  - exists (String x pre). by rewrite append_cons, <- IH.
  - by exists "".
Qed.

Lemma trimStart_no_space (s : string) :
  starts_with Ascii.is_space (trimStart s) = false.
Proof.
  induction s as [|x s IH]; simpl; [done|].
  destruct (Ascii.is_space x) eqn:Hx; [done|]. simpl. done.
Qed.

(** A trimmed piece neither starts nor ends with white space. *)
Lemma trim_no_space (s : string) :
  starts_with Ascii.is_space (trim s) = false
  /\ starts_with Ascii.is_space (String.rev (trim s)) = false.
Proof.
  unfold trim, trimEnd. split.
  - destruct (trimStart_suffix (String.rev (trimStart s))) as [pre Hpre].
    pose proof (trimStart_no_space s) as Ht.
    apply (f_equal String.rev) in Hpre.
    rewrite rev_involutive, rev_append in Hpre.
    destruct (String.rev (trimStart (String.rev (trimStart s)))) as [|c r];
      [done|].
    rewrite Hpre, append_cons in Ht. done.
  - rewrite rev_involutive. apply trimStart_no_space.
Qed.

Lemma starts_space_toLowerCase (s : string) :
  starts_with Ascii.is_space (toLowerCase s) = starts_with Ascii.is_space s.
Proof. destruct s as [|c s]; simpl; [done|]. apply lower_is_space. Qed.

End ReverseFacts.

(** X8.  A query value that starts or ends with white space matches no
    cell: the parts of a cell are trimmed before the comparison and the
    query value is not. *)
Theorem untrimmed_query_value_never_matches (v : string) :
  starts_with Ascii.is_space v = true
  \/ starts_with Ascii.is_space (String.rev v) = true ->
  forall cell, cellMatches cell (JStr v) = false.
Proof.
  intros Hv cell. destruct (cellMatches cell (JStr v)) eqn:Hm; [|done].
  apply cellMatches_spec in Hm. destruct cell as [| | | |c|m]; try done.
  destruct Hm as (part & _ & Heq).
  destruct (trim_no_space part) as [Hs He].
  destruct Hv as [Hv|Hv].
  - rewrite <- starts_space_toLowerCase, <- Heq, starts_space_toLowerCase in Hv.
    congruence.
  - rewrite <- starts_space_toLowerCase, <- rev_toLowerCase, <- Heq,
      rev_toLowerCase, starts_space_toLowerCase in Hv.
    congruence.
Qed.

Lemma untrimmed_query_value_never_matches_witness :
  cellMatches (JStr "John") (JStr "John ") = false.
Proof.
  refine (untrimmed_query_value_never_matches "John " _ (JStr "John")).
  right. reflexivity.
Defined.

(** ** The key check, in full *)

(** X9.  For keys that are empty or start with an ASCII character:
    [find] stops at the first key that is empty or starts with a lowercase
    letter [a]-[z].  The check names a key exactly when that key starts
    with a lowercase letter and every key before it is non-empty and
    passes; it throws a [TypeError] exactly when an empty key comes first;
    and it passes exactly when every key is non-empty and starts with a
    character other than [a]-[z], which upper-casing leaves alone. *)
Theorem invalidKey_first_offender (ks : list string) :
  Forall (fun k => k = "" \/ starts_with is_ascii k = true) ks ->
  let passes := fun k => k <> "" /\ starts_with is_lower k = false in
  (forall key,
     invalidKey ks = Ok (Some key) <->
     exists pre post, ks = pre ++ key :: post /\ Forall passes pre
                      /\ starts_with is_lower key = true)
  /\ (invalidKey ks = Err TypeError <->
      exists pre post, ks = pre ++ "" :: post /\ Forall passes pre)
  /\ (invalidKey ks = Ok None <-> Forall passes ks).
Proof.
  intros _ passes. induction ks as [|k ks (IH1 & IH2 & IH3)].
  - split_and!.
    + intros key. split; [done|]. by intros ([|] & ? & ? & _).
    + split; [done|]. by intros ([|] & ? & ? & _).
    + split; [constructor|done].
  - simpl. destruct k as [|c r].
    + simpl. split_and!.
      * intros key. split; [done|].
        intros ([|k0 pre] & post & Heq & Hpre & Hlow); simpl in Heq.
        -- injection Heq as <- _. done.
        -- injection Heq as <- _. apply Forall_cons in Hpre as [[? _] _]. done.
      * split; [|done]. intros _. by exists [], ks.
      * split; [done|]. by intros [[? _] _]%Forall_cons.
    + rewrite (key_is_invalid_nonempty (String c r)) by done. simpl.
      destruct (is_lower c) eqn:Hc.
      * split_and!.
        -- intros key. split.
           ++ intros [= <-]. by exists [], ks.
           ++ intros ([|k0 pre] & post & Heq & Hpre & Hlow); simpl in Heq.
              ** by injection Heq as <- _.
              ** injection Heq as <- _.
                 apply Forall_cons in Hpre as [[_ Hp] _]. simpl in Hp.
                 congruence.
        -- split; [done|].
           intros ([|k0 pre] & post & Heq & Hpre); simpl in Heq; [done|].
           injection Heq as <- _. apply Forall_cons in Hpre as [[_ Hp] _].
           simpl in Hp. congruence.
        -- split; [done|]. intros [[_ Hp] _]%Forall_cons. simpl in Hp.
           congruence.
      * split_and!.
        -- intros key. rewrite IH1. split.
           ++ intros (pre & post & -> & Hpre & Hlow).
              exists (String c r :: pre), post. split_and!; [done| |done].
              by constructor.
           ++ intros ([|k0 pre] & post & Heq & Hpre & Hlow); simpl in Heq.
              ** injection Heq as <- _. simpl in Hlow. congruence.
              ** injection Heq as <- ->. apply Forall_cons in Hpre as [_ Hpre].
                 by exists pre, post.
        -- rewrite IH2. split.
           ++ intros (pre & post & -> & Hpre).
              exists (String c r :: pre), post. split; [done|]. by constructor.
           ++ intros ([|k0 pre] & post & Heq & Hpre); simpl in Heq; [done|].
              injection Heq as <- ->. apply Forall_cons in Hpre as [_ Hpre].
              by exists pre, post.
        -- rewrite IH3. split.
           ++ intros H. by constructor.
           ++ by intros [_ H]%Forall_cons.
Qed.

Lemma invalidKey_first_offender_witness :
  invalidKey ["Name"; "1st"; "age"; ""; "city"] = Ok (Some "age").
Proof.
  refine (proj2 (proj1 (invalidKey_first_offender
                          ["Name"; "1st"; "age"; ""; "city"] _) "age") _).
  { repeat (constructor; [by (left + right)|]). constructor. }
  exists ["Name"; "1st"], [""; "city"]. split_and!.
  - reflexivity.
  - repeat constructor; discriminate.
  - reflexivity.
Defined.

(** ** [addRow] *)

Section AddRowFacts.
Context {St Raw : Type} (svc : service St Raw) (self : config).

(** The run of [addRow] once the key check has passed and the read has
    resolved. *)
Lemma addRow_run (w : world St) (rowData : object)
    (values : option (list (list jsval))) (s1 : St) :
  invalidKey (keys rowData) = Ok None ->
  read_resolves svc self w values s1 ->
  let sid := spreadsheetId self in
  let rng := SheetRange (sheetName self) in
  let written := addRow_written values rowData in
  let row := row_values (addRow_headers values rowData) rowData in
  addRow svc self rowData w
  = match on_values_update svc sid rng "USER_ENTERED" written s1 with
    | (Rejected why, s2) =>
        (Err (Wrapped AddRow (ServiceError why)),
         mkWorld s2 (trace w ++ [the_read self;
                                 values_update sid rng "USER_ENTERED" written]))
    | (Resolved _, s2) =>
        match on_values_append svc sid rng "USER_ENTERED" [row] s2 with
        | (Rejected why, s3) =>
            (Err (Wrapped AddRow (ServiceError why)),
             mkWorld s3 (trace w ++ [the_read self;
                                     values_update sid rng "USER_ENTERED" written;
                                     values_append sid rng "USER_ENTERED" [row]]))
        | (Resolved updatedRange, s3) =>
            (match parse_row_index updatedRange with
             | Ok n => Ok (mkAdded n rowData)
             | Err e => Err (Wrapped AddRow e)
             end,
             mkWorld s3 (trace w ++ [the_read self;
                                     values_update sid rng "USER_ENTERED" written;
                                     values_append sid rng "USER_ENTERED" [row]]))
        end
    end.
Proof.
  intros Hk Hr sid rng written row. subst sid rng written row.
  unfold addRow_written, addRow_headers. unfold_method. simpl.
  rewrite Hr. simpl. rewrite Hk. simpl.
  destruct (values ≫= head) as [old|]; simpl.
  - destruct (on_values_update _ _ _ _ _ _) as [[[]|why] s2]; simpl;
      [|by rewrite <- !app_assoc].
    destruct (on_values_append _ _ _ _ _ _) as [[rng|why] s3]; simpl;
      [|by rewrite <- !app_assoc].
    destruct (parse_row_index rng); simpl; by rewrite <- !app_assoc.
  - destruct (on_values_update _ _ _ _ _ _) as [[[]|why] s2]; simpl;
      [|by rewrite <- !app_assoc].
    destruct (on_values_append _ _ _ _ _ _) as [[rng|why] s3]; simpl;
      [|by rewrite <- !app_assoc].
    destruct (parse_row_index rng); simpl; by rewrite <- !app_assoc.
Qed.

(** X10.  When the service rejects the header write, [addRow] stops
    there: no append is sent, and the call fails with the error of the
    write. *)
Theorem addRow_header_write_rejected (w : world St) (rowData : object)
    (values : option (list (list jsval))) (s1 s2 : St) (why : string) :
  invalidKey (keys rowData) = Ok None ->
  read_resolves svc self w values s1 ->
  on_values_update svc (spreadsheetId self) (SheetRange (sheetName self))
    "USER_ENTERED" (addRow_written values rowData) s1 = (Rejected why, s2) ->
  addRow svc self rowData w
  = (Err (Wrapped AddRow (ServiceError why)),
     mkWorld s2
       (trace w ++ [the_read self;
                    values_update (spreadsheetId self) (SheetRange (sheetName self))
                      "USER_ENTERED" (addRow_written values rowData)])).
Proof.
  intros Hk Hr Hu. rewrite (addRow_run w rowData values s1 Hk Hr). simpl.
  by rewrite Hu.
Qed.

(** X11.  The row is appended before its position is parsed.  When the
    append resolves with a range whose part before the first colon does
    not end in a digit, [addRow] fails with a [TypeError] although all
    three requests have been sent and the service has taken the row. *)
Theorem addRow_unparsable_range (w : world St) (rowData : object)
    (values : option (list (list jsval))) (s1 s2 s3 : St)
    (updatedRange : string) :
  invalidKey (keys rowData) = Ok None ->
  read_resolves svc self w values s1 ->
  on_values_update svc (spreadsheetId self) (SheetRange (sheetName self))
    "USER_ENTERED" (addRow_written values rowData) s1 = (Resolved tt, s2) ->
  on_values_append svc (spreadsheetId self) (SheetRange (sheetName self))
    "USER_ENTERED" [row_values (addRow_headers values rowData) rowData] s2
  = (Resolved updatedRange, s3) ->
  starts_with is_digit
    (String.rev (default "" (head (split ":" updatedRange)))) = false ->
  addRow svc self rowData w
  = (Err (Wrapped AddRow TypeError),
     mkWorld s3
       (trace w ++ [the_read self;
                    values_update (spreadsheetId self) (SheetRange (sheetName self))
                      "USER_ENTERED" (addRow_written values rowData);
                    values_append (spreadsheetId self) (SheetRange (sheetName self))
                      "USER_ENTERED"
                      [row_values (addRow_headers values rowData) rowData]])).
Proof.
  intros Hk Hr Hu Ha Hseg. rewrite (addRow_run w rowData values s1 Hk Hr).
  simpl. rewrite Hu, Ha. unfold parse_row_index, trailing_digits.
  destruct (String.rev (default "" (head (split ":" updatedRange))))
    as [|c r]; simpl; [done|]. simpl in Hseg. by rewrite Hseg.
Qed.

End AddRowFacts.

Lemma addRow_header_write_rejected_witness :
  addRow Faulty.rejecting_update Demo.self [("Name", JStr "B")] Demo.people
  = (Err (Wrapped AddRow (ServiceError "The caller does not have permission")),
     mkWorld (remote Demo.people)
       [the_read Demo.self;
        values_update "19MoJAvrt26b" (SheetRange "test") "USER_ENTERED"
          (MemorySheet.grid (remote Demo.people))]).
Proof.
  apply (addRow_header_write_rejected Faulty.rejecting_update Demo.self
           Demo.people [("Name", JStr "B")]
           (Some (MemorySheet.grid (remote Demo.people)))
           (remote Demo.people) (remote Demo.people)).
  - reflexivity.
  - reflexivity.
  - reflexivity.
Defined.

Lemma addRow_unparsable_range_witness :
  (addRow Faulty.column_range_append Demo.self [("Name", JStr "B")]
     Demo.header_only).1 = Err (Wrapped AddRow TypeError)
  /\ MemorySheet.grid
       (remote (addRow Faulty.column_range_append Demo.self [("Name", JStr "B")]
                  Demo.header_only).2)
     = [[JStr "Name"; JStr "Age"]; [JStr "B"; JStr ""]].
Proof.
  pose proof (addRow_unparsable_range Faulty.column_range_append Demo.self
                Demo.header_only [("Name", JStr "B")]
                (Some [[JStr "Name"; JStr "Age"]])
                (remote Demo.header_only) (remote Demo.header_only)
                (MemorySheet.mkState [[JStr "Name"; JStr "Age"]; [JStr "B"; JStr ""]]
                   (MemorySheet.sheets (remote Demo.header_only)))
                "test!A:C" eq_refl eq_refl eq_refl eq_refl eq_refl) as H.
  rewrite H. split; reflexivity.
Defined.

(** ** The position that [addRow] returns *)

Section RowIndex.

Lemma parse_digits_acc (d : Decimal.uint) (acc : positive) :
  parse_digits (NilEmpty.string_of_uint d) (Z.pos acc)
  = Z.pos (Pos.of_uint_acc d acc).
Proof.
  revert acc. induction d; intros acc; simpl; [done|..];
    rewrite <- IHd; f_equal; lia.
Qed.

Lemma parse_digits_uint (d : Decimal.uint) :
  parse_digits (NilEmpty.string_of_uint d) 0 = Z.of_N (Pos.of_uint d).
Proof.
  induction d; simpl; [done|done|..]; apply parse_digits_acc.
Qed.

Lemma string_of_Z_pos (p : positive) :
  string_of_Z (Z.pos p) = NilEmpty.string_of_uint (Pos.to_uint p).
Proof.
  unfold string_of_Z. simpl.
  pose proof (DecimalPos.Unsigned.to_uint_nonnil p).
  by destruct (Pos.to_uint p).
Qed.

(** Printing a position and reading it back. *)
Lemma parse_digits_string_of_Z (n : Z) :
  (0 <= n)%Z -> parse_digits (string_of_Z n) 0 = n.
Proof.
  intros Hn. destruct n as [|p|p]; [done| |lia].
  rewrite string_of_Z_pos, parse_digits_uint.
  by rewrite DecimalPos.Unsigned.of_to.
Qed.

Lemma uint_all_digits (d : Decimal.uint) :
  all_chars is_digit (NilEmpty.string_of_uint d) = true.
Proof. induction d; simpl; done. Qed.

Lemma string_of_Z_digits (n : Z) :
  (0 <= n)%Z ->
  all_chars is_digit (string_of_Z n) = true /\ string_of_Z n <> "".
Proof.
  intros Hn. destruct n as [|p|p]; [done| |lia].
  rewrite string_of_Z_pos. split; [apply uint_all_digits|].
  pose proof (DecimalPos.Unsigned.to_uint_nonnil p).
  by destruct (Pos.to_uint p).
Qed.

Lemma all_chars_rev_app (P : ascii -> bool) (a b : string) :
  all_chars P (String.rev_app a b) = all_chars P a && all_chars P b.
Proof.
  revert b. induction a as [|x a IH]; intros b; simpl; [done|].
  rewrite IH. simpl. destruct (P x), (all_chars P a); done.
Qed.

Lemma all_chars_rev (P : ascii -> bool) (s : string) :
  all_chars P (String.rev s) = all_chars P s.
Proof.
  unfold String.rev. rewrite all_chars_rev_app. simpl. apply andb_true_r.
Qed.

Lemma leading_digits_append (ds rest : string) :
  all_chars is_digit ds = true -> starts_with is_digit rest = false ->
  leading_digits (ds +:+ rest) = ds.
Proof.
  intros Hds Hrest. induction ds as [|c ds IH].
  - rewrite append_nil. destruct rest as [|x rest]; [done|]. simpl in *.
    by rewrite Hrest.
  - simpl in Hds. apply andb_true_iff in Hds as [Hc Hds].
    rewrite append_cons. simpl. by rewrite Hc, IH.
Qed.

Lemma trailing_digits_append (pre ds : string) :
  all_chars is_digit ds = true ->
  starts_with is_digit (String.rev pre) = false ->
  trailing_digits (pre +:+ ds) = ds.
Proof.
  intros Hds Hpre. unfold trailing_digits.
  rewrite rev_append, leading_digits_append; [apply rev_involutive| |done].
  by rewrite all_chars_rev.
Qed.

Lemma split_append_sep (sep : ascii) (a b : string) :
  has_char sep a = false ->
  split sep (a +:+ String sep b) = a :: split sep b.
Proof.
  intros Ha. induction a as [|x a IH].
  - rewrite append_nil. simpl. by rewrite Ascii.eqb_refl.
  - simpl in Ha. apply orb_false_iff in Ha as [Hx Ha].
    rewrite append_cons. simpl. by rewrite Hx, IH.
Qed.

Lemma split_no_sep (sep : ascii) (a : string) :
  has_char sep a = false -> split sep a = [a].
Proof.
  intros Ha. induction a as [|x a IH]; [done|].
  simpl in Ha. apply orb_false_iff in Ha as [Hx Ha].
  simpl. by rewrite Hx, IH.
Qed.

Lemma has_char_append (c : ascii) (a b : string) :
  has_char c (a +:+ b) = has_char c a || has_char c b.
Proof.
  induction a as [|x a IH]; [done|]. rewrite append_cons. simpl.
  rewrite IH. by destruct (Ascii.eqb x c).
Qed.

Lemma digits_no_colon (ds : string) :
  all_chars is_digit ds = true -> has_char ":" ds = false.
Proof.
  induction ds as [|c ds IH]; simpl; [done|].
  intros [Hc Hds]%andb_true_iff. rewrite (IH Hds).
  by destruct c as [[] [] [] [] [] [] [] []].
Qed.

End RowIndex.

(** X12.  The position is read back from the range that the append
    reports.  For a range in A1 notation, a prefix without colon that does
    not end in a digit (sheet name, [!] and column letters), followed by
    the decimal digits of a position [n] that a JavaScript number holds
    exactly ([n] at most 2^53) and, possibly, by a colon and the far
    corner, the parsed position is [n]; with such a reply [addRow] returns
    [n] together with [rowData] as it was given. *)
Theorem addRow_returns_reported_position {St Raw : Type}
    (svc : service St Raw) (self : config) (w : world St) (rowData : object)
    (values : option (list (list jsval))) (s1 s2 s3 : St)
    (pre rest updatedRange : string) (n : Z) :
  (0 <= n <= 2 ^ 53)%Z ->
  has_char ":" pre = false ->
  starts_with is_digit (String.rev pre) = false ->
  updatedRange = pre +:+ string_of_Z n
  \/ updatedRange = (pre +:+ string_of_Z n) +:+ String ":" rest ->
  parse_row_index updatedRange = Ok n
  /\ (invalidKey (keys rowData) = Ok None ->
      read_resolves svc self w values s1 ->
      on_values_update svc (spreadsheetId self) (SheetRange (sheetName self))
        "USER_ENTERED" (addRow_written values rowData) s1 = (Resolved tt, s2) ->
      on_values_append svc (spreadsheetId self) (SheetRange (sheetName self))
        "USER_ENTERED" [row_values (addRow_headers values rowData) rowData] s2
      = (Resolved updatedRange, s3) ->
      (addRow svc self rowData w).1 = Ok (mkAdded n rowData)).
Proof.
  intros [Hn _] Hpre Hend Hrng.
  destruct (string_of_Z_digits n Hn) as [Hds Hne].
  assert (parse_row_index updatedRange = Ok n) as Hparse.
  { assert (head (split ":" updatedRange) = Some (pre +:+ string_of_Z n)) as Hh.
    { destruct Hrng as [-> | ->].
      - rewrite split_no_sep; [done|].
        by rewrite has_char_append, Hpre, digits_no_colon.
      - rewrite split_append_sep; [done|].
        by rewrite has_char_append, Hpre, digits_no_colon. }
    unfold parse_row_index. rewrite Hh. simpl.
    rewrite (trailing_digits_append pre (string_of_Z n) Hds Hend).
    transitivity (Ok (A:=Z) (parse_digits (string_of_Z n) 0));
      [by destruct (string_of_Z n)|].
    by rewrite parse_digits_string_of_Z. }
  split; [done|]. intros Hk Hr Hu Ha.
  rewrite (addRow_run svc self w rowData values s1 Hk Hr). simpl.
  by rewrite Hu, Ha, Hparse.
Qed.

Lemma addRow_returns_reported_position_witness :
  parse_row_index "Sheet1!A12:C12" = Ok 12%Z
  /\ (addRow MemorySheet.memory Demo.self [("Name", JStr "B")] Demo.people).1
     = Ok (mkAdded 5 [("Name", JStr "B")]).
Proof.
  split.
  - refine (proj1 (addRow_returns_reported_position MemorySheet.memory Demo.self
                     Demo.people [] None (remote Demo.people) (remote Demo.people)
                     (remote Demo.people) "Sheet1!A" "C12" "Sheet1!A12:C12" 12
                     _ _ _ _)).
    + lia.
    + reflexivity.
    + reflexivity.
    + right. reflexivity.
  - refine (proj2 (addRow_returns_reported_position MemorySheet.memory Demo.self
                     Demo.people [("Name", JStr "B")]
                     (Some (MemorySheet.grid (remote Demo.people)))
                     (remote Demo.people) (remote Demo.people)
                     (MemorySheet.mkState
                        (MemorySheet.grid (remote Demo.people) ++ [[JStr "B"; JStr ""; JStr ""]])
                        (MemorySheet.sheets (remote Demo.people)))
                     "test!A" "Z5" "test!A5:Z5" 5 _ _ _ _) _ _ _ _).
    + lia.
    + reflexivity.
    + reflexivity.
    + right. reflexivity.
    + reflexivity.
    + reflexivity.
    + reflexivity.
    + reflexivity.
Defined.

(** ** The mapping query in the words of the specification (claim C7) *)

Section MappingQueryWords.



















End MappingQueryWords.



(** ** The header row under [addRow] *)

Section HeaderGrowth.

Lemma extend_headers_cons (hs : list jsval) (k : string) (ks : list string) :
  extend_headers hs (k :: ks)
  = extend_headers (if includes hs (JStr k) then hs else hs ++ [JStr k]) ks.
Proof. reflexivity. Qed.

Lemma extend_headers_prefix (hs : list jsval) (ks : list string) :
  exists added,
    extend_headers hs ks = hs ++ added
    /\ forall h, h ∈ added -> exists k, k ∈ ks /\ h = JStr k /\ h ∉ hs.
Proof.
  revert hs. induction ks as [|k ks IH]; intros hs.
  - exists []. split; [by rewrite app_nil_r|]. by intros h ?%elem_of_nil.
  - rewrite extend_headers_cons. unfold includes. case_bool_decide as Hin.
    + destruct (IH hs) as (added & -> & Hadded). exists added. split; [done|].
      intros h Hh. destruct (Hadded h Hh) as (k' & Hk' & -> & Hout).
      exists k'. split_and!; [apply elem_of_cons; by right|done..].
    + destruct (IH (hs ++ [JStr k])) as (added & -> & Hadded).
      exists (JStr k :: added). split; [by rewrite <- app_assoc|].
      intros h [->|Hh]%elem_of_cons.
      * exists k. split_and!; [apply elem_of_cons; by left|done..].
      * destruct (Hadded h Hh) as (k' & Hk' & -> & Hout).
        exists k'. split_and!; [apply elem_of_cons; by right|done|].
        intros Hhs. apply Hout, elem_of_app. by left.
Qed.

Lemma extend_headers_NoDup (hs : list jsval) (ks : list string) :
  NoDup hs -> NoDup (extend_headers hs ks).
Proof.
  revert hs. induction ks as [|k ks IH]; intros hs Hnd; [done|].
  rewrite extend_headers_cons. apply IH. unfold includes.
  case_bool_decide as Hin; [done|].
  apply NoDup_app. split_and!; [done| |apply NoDup_singleton].
  intros h Hh ->%list_elem_of_singleton. done.
Qed.

Lemma extend_headers_present (hs : list jsval) (ks : list string) :
  (forall k, k ∈ ks -> JStr k ∈ hs) -> extend_headers hs ks = hs.
Proof.
  revert hs. induction ks as [|k ks IH]; intros hs Hall; [done|].
  rewrite extend_headers_cons. unfold includes.
  rewrite bool_decide_eq_true_2 by (apply Hall, elem_of_cons; by left).
  apply IH. intros k' Hk'. apply Hall, elem_of_cons. by right.
Qed.

Lemma extend_headers_covers (hs : list jsval) (ks : list string) (k : string) :
  k ∈ ks -> JStr k ∈ extend_headers hs ks.
Proof.
  revert hs. induction ks as [|k0 ks IH]; intros hs Hk;
    [by apply elem_of_nil in Hk|].
  rewrite extend_headers_cons.
  apply elem_of_cons in Hk as [->|Hk]; [|by apply IH].
  destruct (extend_headers_prefix
              (if includes hs (JStr k0) then hs else hs ++ [JStr k0]) ks)
    as (added & -> & _).
  apply elem_of_app. left. unfold includes. case_bool_decide as Hin; [done|].
  apply elem_of_app. right. by apply list_elem_of_singleton.
Qed.

End HeaderGrowth.

(** X13.  The header row only grows, and only at its end.  The header row
    that [addRow] writes starts with the header row that it read; what
    follows are keys of [rowData] that the old row lacked; every key of
    [rowData] is in it; a header row without repeated names stays without
    repeated names; when every key is already a header the row is written
    back as it was; and extending twice by the same keys is the same as
    extending once. *)
Theorem addRow_header_growth (hs : list jsval) (ks : list string) :
  (exists added,
     extend_headers hs ks = hs ++ added
     /\ forall h, h ∈ added -> exists k, k ∈ ks /\ h = JStr k /\ h ∉ hs)
  /\ (forall k, k ∈ ks -> JStr k ∈ extend_headers hs ks)
  /\ (NoDup hs -> NoDup (extend_headers hs ks))
  /\ ((forall k, k ∈ ks -> JStr k ∈ hs) -> extend_headers hs ks = hs)
  /\ extend_headers (extend_headers hs ks) ks = extend_headers hs ks.
Proof.
  split_and!.
  - apply extend_headers_prefix.
  - apply extend_headers_covers.
  - apply extend_headers_NoDup.
  - apply extend_headers_present.
  - apply extend_headers_present. apply extend_headers_covers.
Qed.

Lemma addRow_header_growth_witness :
  NoDup (extend_headers [JStr "Name"; JStr "Age"] ["City"; "Name"; "City"])
  /\ extend_headers [JStr "Name"; JStr "Age"] ["Age"; "Name"]
     = [JStr "Name"; JStr "Age"].
Proof.
  split.
  - refine (proj1 (proj2 (proj2 (addRow_header_growth
                                   [JStr "Name"; JStr "Age"]
                                   ["City"; "Name"; "City"]))) _).
    apply (bool_decide_unpack _). by vm_compute.
  - refine (proj1 (proj2 (proj2 (proj2 (addRow_header_growth
                                          [JStr "Name"; JStr "Age"]
                                          ["Age"; "Name"])))) _).
    intros k Hk. apply (bool_decide_unpack _).
    repeat (apply elem_of_cons in Hk as [->|Hk]; [by vm_compute|]).
    by apply elem_of_nil in Hk.
Defined.

(** ** [updateRow] *)

Section UpdateRowFacts.
Context {St Raw : Type} (svc : service St Raw) (self : config).

(** X14.  Both checks of [updateRow] come before any request: when the
    positions include 1, or when the key check does not pass (a key that
    starts with a lowercase letter, or an empty key), the call fails
    without sending anything; and when both checks fail, the error is the
    one of the position. *)
Theorem updateRow_validation_sends_nothing (w : world St) (r : rowIndexes)
    (rowData : object) :
  1%Z ∈ normalize r \/ invalidKey (keys rowData) <> Ok None ->
  (updateRow svc self r rowData w).2 = w
  /\ (exists e, (updateRow svc self r rowData w).1 = Err (Wrapped UpdateRow e)
                /\ (1%Z ∈ normalize r -> e = HeaderRowIndex)
                /\ (1%Z ∉ normalize r ->
                    e = TypeError \/ exists key, e = InvalidKey key)).
Proof.
  intros H. unfold_method. simpl. case_bool_decide as H1; simpl.
  - split; [done|]. exists HeaderRowIndex. by split_and!.
  - destruct H as [H|H]; [done|].
    destruct (invalidKey (keys rowData)) as [[key|]|e] eqn:Hk; simpl.
    + split; [done|]. exists (InvalidKey key). split_and!; [done..|].
      intros _. right. by exists key.
    + done.
    + split; [done|]. exists e. split_and!; [done..|]. intros _. left.
      clear -Hk. induction (keys rowData) as [|k ks IH]; simpl in Hk; [done|].
      destruct k as [|c s]; simpl in Hk; [congruence|].
      destruct (negb _); [done|by apply IH].
Qed.

(** X15.  On a sheet without a header row [updateRow] never writes.
    With valid arguments, when the read resolves without a value range the
    call fails with a [TypeError] after the read; the same holds for an
    empty value range as soon as there is a position and a key to
    process. *)
Theorem updateRow_without_header (w : world St) (r : rowIndexes)
    (rowData : object) (values : option (list (list jsval))) (s : St) :
  1%Z ∉ normalize r ->
  invalidKey (keys rowData) = Ok None ->
  read_resolves svc self w values s ->
  values = None \/ (values = Some [] /\ normalize r <> [] /\ rowData <> []) ->
  updateRow svc self r rowData w
  = (Err (Wrapped UpdateRow TypeError), mkWorld s (trace w ++ [the_read self])).
Proof.
  intros H1 Hk Hr Hv. unfold_method. simpl.
  rewrite bool_decide_eq_false_2 by done. rewrite Hk. simpl. rewrite Hr. simpl.
  destruct Hv as [->|(-> & Hidx & Hdata)]; [done|].
  destruct (normalize r) as [|idx idxs]; [done|].
  destruct rowData as [|[key value] rowData]; [done|]. done.
Qed.

Lemma array_set_length (a : list jsval) (i : nat) (v : jsval) :
  length (array_set a i v) = (length a `max` S i)%nat.
Proof.
  unfold array_set. destruct (decide (i < length a)%nat).
  - rewrite length_insert. lia.
  - rewrite !length_app, length_replicate. simpl. lia.
Qed.

Lemma patch_length (hs : list jsval) es row updated :
  patch (Some hs) row es = Ok updated ->
  (length row <= length updated <= length row `max` length hs)%nat.
Proof.
  revert row. induction es as [|[key value] es IH]; intros row Hp.
  - injection Hp as ->. lia.
  - rewrite patch_step in Hp. apply IH in Hp.
    destruct (index_of hs (JStr key)) as [i|] eqn:Hi; [|done].
    apply index_of_Some_1 in Hi as [Hi _]. apply lookup_lt_Some in Hi.
    rewrite array_set_length in Hp. lia.
Qed.

(** X16.  The row that [updateRow] writes for a position is never
    shorter than the existing row and never reaches past both the existing
    row and the header row; and when no key of [rowData] is a header, the
    batched write is sent all the same and carries the existing rows as
    they were read. *)
Theorem updateRow_written_rows (w : world St) (r : rowIndexes)
    (rowData : object) (values : list (list jsval)) (headers : list jsval)
    (s : St) :
  1%Z ∉ normalize r ->
  invalidKey (keys rowData) = Ok None ->
  read_resolves svc self w (Some values) s ->
  head values = Some headers ->
  exists requests,
    trace (updateRow svc self r rowData w).2
    = trace w ++ [the_read self;
                  values_batchUpdate (spreadsheetId self) "USER_ENTERED" requests]
    /\ forall k rowIndex,
         normalize r !! k = Some rowIndex ->
         let existingRow := default [] (rows_get values (rowIndex - 1)) in
         exists updatedValues,
           requests !! k
           = Some (mkValueRange (RowRange (sheetName self) rowIndex)
                     [updatedValues])
           /\ (length existingRow <= length updatedValues
               <= length existingRow `max` length headers)%nat
           /\ ((forall key, key ∈ keys rowData -> JStr key ∉ headers) ->
               updatedValues = existingRow).
Proof.
  intros H1 Hk Hr Hh.
  destruct (updateRow_run svc self w r rowData values headers s H1 Hk Hr Hh)
    as (requests & _ & Hf & Hrun).
  exists requests. split.
  - rewrite Hrun. by destruct (on_values_batchUpdate _ _ _ _ _) as [[] ?].
  - intros k rowIndex Hidx existingRow.
    destruct (Forall2_lookup_l _ _ _ _ _ Hf Hidx)
      as (d & Hd & updated & -> & Hp).
    exists updated. split; [done|].
    split; [by apply (patch_length headers _ _ _ Hp)|].
    intros Hunknown. unfold entries in Hp. rewrite patch_known in Hp.
    assert (filter (fun kv : string * jsval => JStr kv.1 ∈ headers) rowData = [])
      as Hnone.
    { clear -Hunknown. unfold keys in Hunknown.
      induction rowData as [|[key value] o IH]; [done|].
      rewrite filter_cons_False.
      - apply IH. intros k Hk. apply Hunknown. simpl. apply elem_of_cons.
        by right.
      - simpl. apply Hunknown. simpl. apply elem_of_cons. by left. }
    rewrite Hnone in Hp. by injection Hp as <-.
Qed.

End UpdateRowFacts.

Lemma updateRow_validation_sends_nothing_witness :
  (updateRow MemorySheet.memory Demo.self (Several [1; 3]%Z)
     [("name", JStr "x")] Demo.people).2 = Demo.people.
Proof.
  refine (proj1 (updateRow_validation_sends_nothing MemorySheet.memory Demo.self
                   Demo.people (Several [1; 3]%Z) [("name", JStr "x")] _)).
  right. discriminate.
Defined.

Lemma updateRow_without_header_witness :
  updateRow MemorySheet.memory Demo.self (Single 2) [("Name", JStr "x")]
    Demo.empty_sheet
  = (Err (Wrapped UpdateRow TypeError),
     mkWorld (remote Demo.empty_sheet) [the_read Demo.self]).
Proof.
  apply (updateRow_without_header MemorySheet.memory Demo.self Demo.empty_sheet
           (Single 2) [("Name", JStr "x")] None (remote Demo.empty_sheet)).
  - intros H%list_elem_of_singleton. discriminate.
  - reflexivity.
  - reflexivity.
  - by left.
Defined.

Lemma updateRow_written_rows_witness :
  exists requests,
    trace (updateRow MemorySheet.memory Demo.self (Several [3; 9]%Z)
             [("Zip", JStr "00100")] Demo.people).2
    = [the_read Demo.self;
       values_batchUpdate "19MoJAvrt26b" "USER_ENTERED" requests]
    /\ requests = [mkValueRange (RowRange "test" 3) [[JStr "Johnny"; JStr "25"]];
                   mkValueRange (RowRange "test" 9) [[]]].
Proof.
  destruct (updateRow_written_rows MemorySheet.memory Demo.self Demo.people
              (Several [3; 9]%Z) [("Zip", JStr "00100")]
              (MemorySheet.grid (remote Demo.people))
              [JStr "Name"; JStr "Age"; JStr "City"] (remote Demo.people))
    as (requests & Htrace & _).
  - intros H. repeat (apply elem_of_cons in H as [H|H]; [discriminate|]).
    by apply elem_of_nil in H.
  - reflexivity.
  - reflexivity.
  - reflexivity.
  - exists requests. split; [exact Htrace|].
    vm_compute in Htrace. by injection Htrace as ->.
Defined.

(** ** [deleteRow] and [getSheetId] *)

Section DeleteRowFacts.
Context {St Raw : Type} (svc : service St Raw) (self : config).

(** X17.  [deleteRow] has no guard and removes no duplicate.  Once the
    lookup of the sheet has succeeded it sends, whatever the positions are,
    one batched delete that holds one request per given position, repeated
    positions included; every request removes exactly one row of the sheet
    that was looked up; and position 1 is treated like any other, so that
    the header row is deleted when it is asked for. *)
Theorem deleteRow_has_no_guard (w : world St) (r : rowIndexes)
    (sheets : list (string * Z)) (s1 : St) (i : nat) (title : string) (id : Z) :
  on_spreadsheets_get svc (spreadsheetId self) (remote w) = (Resolved sheets, s1) ->
  list_find (fun sh => sh.1 = sheetName self) sheets = Some (i, (title, id)) ->
  exists requests,
    trace (deleteRow svc self r w).2
    = trace w ++ [spreadsheets_get (spreadsheetId self);
                  spreadsheets_batchUpdate (spreadsheetId self) requests]
    /\ requests ≡ₚ delete_request id <$> normalize r
    /\ Forall (fun d => sheetId d = id /\ dimension d = "ROWS"
                        /\ endIndex d = (startIndex d + 1)%Z) requests
    /\ (1%Z ∈ normalize r -> mkDimensionRange id "ROWS" 0 1 ∈ requests).
Proof.
  intros Hget Hfind. exists (delete_request id <$> sort_desc (normalize r)).
  split_and!.
  - unfold_method. simpl. rewrite Hget. simpl. rewrite Hfind. simpl.
    destruct (on_spreadsheets_batchUpdate _ _ _ _) as [[replies|why] s2];
      simpl; by rewrite <- app_assoc.
  - by rewrite (sort_desc_perm (normalize r)).
  - apply Forall_fmap, Forall_forall. intros p _. simpl. split_and!; [done..|lia].
  - intros H1. rewrite (sort_desc_perm (normalize r)).
    apply (list_elem_of_fmap_2 (delete_request id)) in H1. done.
Qed.

(** X18.  When the lookup of the sheet fails, nothing is deleted.  If no
    sheet of the spreadsheet has the configured name, or if the lookup is
    rejected, [deleteRow] fails with the error of [getSheetId] wrapped in
    its own, and the lookup is the only request sent. *)
Theorem deleteRow_lookup_failure (w : world St) (r : rowIndexes) (s1 : St) :
  (forall sheets,
     on_spreadsheets_get svc (spreadsheetId self) (remote w)
     = (Resolved sheets, s1) ->
     sheetName self ∉ sheets.*1 ->
     deleteRow svc self r w
     = (Err (Wrapped DeleteRow (Wrapped GetSheetId TypeError)),
        mkWorld s1 (trace w ++ [spreadsheets_get (spreadsheetId self)])))
  /\ (forall why,
        on_spreadsheets_get svc (spreadsheetId self) (remote w)
        = (Rejected why, s1) ->
        deleteRow svc self r w
        = (Err (Wrapped DeleteRow (Wrapped GetSheetId (ServiceError why))),
           mkWorld s1 (trace w ++ [spreadsheets_get (spreadsheetId self)]))).
Proof.
  split.
  - intros sheets Hget Hout. unfold_method. simpl. rewrite Hget. simpl.
    assert (list_find (fun sh : string * Z => sh.1 = sheetName self) sheets = None)
      as ->; [|done].
    apply list_find_None, Forall_forall. intros [t x] Hin Heq. simpl in Heq.
    apply Hout. apply list_elem_of_fmap. exists (t, x). by split.
  - intros why Hget. unfold_method. simpl. by rewrite Hget.
Qed.

End DeleteRowFacts.

Lemma deleteRow_has_no_guard_witness :
  exists requests,
    trace (deleteRow MemorySheet.memory Demo.self (Several [1; 3; 3]%Z)
             Demo.people).2
    = [spreadsheets_get "19MoJAvrt26b";
       spreadsheets_batchUpdate "19MoJAvrt26b" requests]
    /\ requests = [mkDimensionRange 7 "ROWS" 2 3; mkDimensionRange 7 "ROWS" 2 3;
                   mkDimensionRange 7 "ROWS" 0 1].
Proof.
  destruct (deleteRow_has_no_guard MemorySheet.memory Demo.self Demo.people
              (Several [1; 3; 3]%Z) (MemorySheet.sheets (remote Demo.people))
              (remote Demo.people) 1%nat "test" 7%Z eq_refl eq_refl)
    as (requests & Htrace & _).
  exists requests. split; [exact Htrace|].
  vm_compute in Htrace. by injection Htrace as ->.
Defined.

Lemma deleteRow_lookup_failure_witness :
  deleteRow MemorySheet.memory (mkConfig "19MoJAvrt26b" "archive")
    (Single 2) Demo.people
  = (Err (Wrapped DeleteRow (Wrapped GetSheetId TypeError)),
     mkWorld (remote Demo.people) [spreadsheets_get "19MoJAvrt26b"])
  /\ deleteRow Faulty.rejecting_batches Demo.self (Single 2) Demo.people
     = (Err (Wrapped DeleteRow
               (Wrapped GetSheetId (ServiceError "Requested entity was not found"))),
        mkWorld (remote Demo.people) [spreadsheets_get "19MoJAvrt26b"]).
Proof.
  split.
  - refine (proj1 (deleteRow_lookup_failure MemorySheet.memory
                     (mkConfig "19MoJAvrt26b" "archive") Demo.people (Single 2)
                     (remote Demo.people))
                  (MemorySheet.sheets (remote Demo.people)) _ _).
    + reflexivity.
    + intros H. repeat (apply elem_of_cons in H as [H|H]; [discriminate|]).
      by apply elem_of_nil in H.
  - refine (proj2 (deleteRow_lookup_failure Faulty.rejecting_batches Demo.self
                     Demo.people (Single 2) (remote Demo.people)) _ _).
    reflexivity.
Defined.

(** ** Deleting on the sheet in memory *)

Section DeleteSemantics.

Lemma remove_at_app (pos : Z) (ps : list Z) (a b : list (list jsval)) :
  remove_at pos ps (a ++ b)
  = remove_at pos ps a ++ remove_at (pos + Z.of_nat (length a)) ps b.
Proof.
  revert pos. induction a as [|row a IH]; intros pos; simpl.
  - f_equal. lia.
  - rewrite IH. replace (pos + 1 + Z.of_nat (length a))%Z
      with (pos + Z.pos (Pos.of_succ_nat (length a)))%Z by lia.
    by destruct (bool_decide (pos ∈ ps)).
Qed.

Lemma remove_at_ext (pos : Z) (ps ps' : list Z) (grid : list (list jsval)) :
  (forall q, (pos <= q < pos + Z.of_nat (length grid))%Z -> q ∈ ps <-> q ∈ ps') ->
  remove_at pos ps grid = remove_at pos ps' grid.
Proof.
  revert pos. induction grid as [|row grid IH]; intros pos Hext; [done|].
  simpl. rewrite (IH (pos + 1)%Z) by (intros q Hq; apply Hext; simpl; lia).
  assert (pos ∈ ps <-> pos ∈ ps') as Hpos by (apply Hext; simpl; lia).
  destruct (decide (pos ∈ ps)) as [Hin|Hout].
  - rewrite !bool_decide_eq_true_2; [done|by apply Hpos|done].
  - rewrite !bool_decide_eq_false_2; [done| |done]. intros H. by apply Hout, Hpos.
Qed.

Lemma remove_at_none (pos : Z) (ps : list Z) (grid : list (list jsval)) :
  (forall q, (pos <= q < pos + Z.of_nat (length grid))%Z -> q ∉ ps) ->
  remove_at pos ps grid = grid.
Proof.
  revert pos. induction grid as [|row grid IH]; intros pos Hout; [done|].
  simpl. rewrite bool_decide_eq_false_2 by (apply Hout; simpl; lia).
  f_equal. apply IH. intros q Hq. apply Hout. simpl. lia.
Qed.

(** Deleting one row that lies below every position of [ps]. *)
Lemma delete_rows_remove_at (id p : Z) (ps : list Z) (grid : list (list jsval)) :
  Forall (fun q => (q < p)%Z) ps ->
  remove_at 1 ps (MemorySheet.delete_rows (delete_request id p) grid)
  = remove_at 1 (p :: ps) grid.
Proof.
  intros Hlt. rewrite Forall_forall in Hlt.
  unfold MemorySheet.delete_rows. simpl.
  destruct (Z.le_gt_cases p 0) as [Hp|Hp].
  - replace (Z.to_nat (p - 1)) with 0%nat by lia.
    replace (Z.to_nat p) with 0%nat by lia. simpl. rewrite drop_0.
    apply remove_at_ext. intros q Hq. rewrite elem_of_cons. split; [by right|].
    intros [->|H]; [lia|done].
  - rewrite <- (take_drop (Z.to_nat (p - 1)) grid) at 3.
    rewrite !remove_at_app. f_equal.
    + apply remove_at_ext. intros q Hq. rewrite length_take in Hq.
      rewrite elem_of_cons. split; [by right|]. intros [->|H]; [lia|done].
    + destruct (decide (Z.to_nat (p - 1) < length grid)%nat) as [Hlen|Hlen].
      * rewrite length_take, Nat.min_l by lia.
        destruct (drop (Z.to_nat (p - 1)) grid) as [|row rest] eqn:Hdrop.
        { apply (f_equal length) in Hdrop. rewrite length_drop in Hdrop.
          simpl in Hdrop. lia. }
        assert (drop (Z.to_nat p) grid = rest) as ->.
        { replace (Z.to_nat p) with (Z.to_nat (p - 1) + 1)%nat by lia.
          rewrite <- drop_drop, Hdrop. done. }
        simpl. rewrite bool_decide_eq_true_2
          by (apply elem_of_cons; left; lia).
        rewrite !remove_at_none; [done|..].
        -- intros q Hq [->|H]%elem_of_cons; [lia|]. specialize (Hlt q H). lia.
        -- intros q Hq H. specialize (Hlt q H). lia.
      * rewrite !drop_ge by lia. done.
Qed.

Lemma delete_batch_remove_at (id : Z) (ps : list Z) (grid : list (list jsval)) :
  StronglySorted (fun x y => (y < x)%Z) ps ->
  MemorySheet.delete_batch (delete_request id <$> ps) grid = remove_at 1 ps grid.
Proof.
  intros Hs. revert grid. induction Hs as [|p ps Hs IH Hp]; intros grid.
  - simpl. symmetry. apply remove_at_none. intros q _. apply not_elem_of_nil.
  - unfold MemorySheet.delete_batch in *. simpl. rewrite IH.
    by apply delete_rows_remove_at.
Qed.

Lemma sorted_strict (l : list Z) :
  NoDup l -> StronglySorted (fun x y => (y <= x)%Z) l ->
  StronglySorted (fun x y => (y < x)%Z) l.
Proof.
  intros Hnd Hs. induction Hs as [|a l Hs IH Ha]; [constructor|].
  apply NoDup_cons in Hnd as [Hout Hnd]. constructor; [by apply IH|].
  rewrite Forall_forall in *. intros x Hx. specialize (Ha x Hx).
  assert (x <> a) by (by intros ->). lia.
Qed.

End DeleteSemantics.

(** X19.  On the sheet in memory, where the requests of a batch are
    applied one after the other, [deleteRow] with positions that are all
    different and all within the sheet removes exactly the rows at these
    positions, whatever the order in which they are given, and reports
    their number. *)
Theorem deleteRow_removes_the_rows (self : config)
    (w : world MemorySheet.state) (r : rowIndexes)
    (i : nat) (title : string) (id : Z) :
  list_find (fun sh => sh.1 = sheetName self) (MemorySheet.sheets (remote w))
  = Some (i, (title, id)) ->
  NoDup (normalize r) ->
  Forall (fun p => (1 <= p <= Z.of_nat (length (MemorySheet.grid (remote w))))%Z)
    (normalize r) ->
  (deleteRow MemorySheet.memory self r w).1
  = Ok (Z.of_nat (length (normalize r)))
  /\ MemorySheet.grid (remote (deleteRow MemorySheet.memory self r w).2)
     = remove_at 1 (normalize r) (MemorySheet.grid (remote w)).
Proof.
  intros Hfind Hnd Hin.
  assert (NoDup (sort_desc (normalize r))) as Hnd'
    by (by rewrite (sort_desc_perm (normalize r))).
  pose proof (sorted_strict _ Hnd' (sort_desc_sorted (normalize r))) as Hs.
  unfold_method. simpl. rewrite Hfind. simpl.
  assert (forallb (fun d => (0 <=? startIndex d)%Z
                            && (startIndex d <? endIndex d)%Z
                            && (endIndex d
                                <=? Z.of_nat (length (MemorySheet.grid (remote w))))%Z)
            (delete_request id <$> sort_desc (normalize r)) = true) as ->.
  { apply forallb_forall. intros d Hd%list_elem_of_In.
    apply list_elem_of_fmap in Hd as (p & -> & Hp).
    rewrite (sort_desc_perm (normalize r)) in Hp.
    rewrite Forall_forall in Hin. specialize (Hin p Hp). simpl.
    apply andb_true_iff. split; [apply andb_true_iff; split|]; lia. }
  simpl. split.
  - by rewrite length_replicate, length_fmap, (sort_desc_perm (normalize r)).
  - rewrite (delete_batch_remove_at id _ _ Hs).
    apply remove_at_ext. intros q _. by rewrite (sort_desc_perm (normalize r)).
Qed.

Lemma deleteRow_removes_the_rows_witness :
  (deleteRow MemorySheet.memory Demo.self (Several [2; 4; 3]%Z) Demo.people).1
  = Ok 3%Z
  /\ MemorySheet.grid
       (remote (deleteRow MemorySheet.memory Demo.self (Several [2; 4; 3]%Z)
                  Demo.people).2)
     = [[JStr "Name"; JStr "Age"; JStr "City"]].
Proof.
  apply (deleteRow_removes_the_rows Demo.self Demo.people (Several [2; 4; 3]%Z)
           1%nat "test" 7%Z).
  - reflexivity.
  - apply (bool_decide_unpack _). by vm_compute.
  - repeat constructor; simpl; lia.
Defined.

(** ** [convertGoogleDriveLink], applied twice *)

Section LinkIdempotent.

Lemma match_here_not_slash (c : ascii) (r : string) :
  c <> "/"%char -> match_here (String c r) = None.
Proof. by destruct c as [[] [] [] [] [] [] [] []]. Qed.

Lemma id_char_not_slash (c : ascii) : is_id_char c = true -> c <> "/"%char.
Proof. by intros H ->. Qed.

Lemma regex_match_skip (c : ascii) (r : string) :
  match_here (String c r) = None ->
  regex_match (String c r) = regex_match r.
Proof. intros H. cbn [regex_match]. by rewrite H. Qed.

Lemma regex_match_identifier (id : string) :
  all_chars is_id_char id = true -> regex_match id = None.
Proof.
  induction id as [|c id IH]; [done|]. simpl all_chars.
  intros [Hc Hid]%andb_true_iff.
  rewrite regex_match_skip; [by apply IH|].
  by apply match_here_not_slash, id_char_not_slash.
Qed.

(** The direct link does not contain the share-link pattern. *)
Lemma regex_match_direct_link (id : string) :
  all_chars is_id_char id = true ->
  regex_match ("https://drive.google.com/uc?id=" +:+ id) = None.
Proof.
  intros Hid. rewrite !append_cons, append_nil.
  repeat (rewrite regex_match_skip by reflexivity).
  by apply regex_match_identifier.
Qed.

End LinkIdempotent.

(** X20.  Converting twice is the same as converting once: the direct
    link that [convertGoogleDriveLink] builds does not itself contain the
    share-link pattern, so that a link that was already converted, like
    every other argument without the pattern, is returned as it is. *)
Theorem convertGoogleDriveLink_idempotent (url : jsval) :
  convertGoogleDriveLink (convertGoogleDriveLink url)
  = convertGoogleDriveLink url.
Proof.
  destruct url as [| | | |u|m]; try done.
  unfold convertGoogleDriveLink.
  destruct (regex_match u) as [id|] eqn:Hid.
  - destruct (regex_match_Some u id Hid) as (pre & rest & (_ & _ & Hall & _) & _).
    by rewrite (regex_match_direct_link id Hall).
  - by rewrite Hid.
Qed.

(** ** Construction *)

Section ConstructionFacts.
Context {Cred Client : Type} (pf : Construction.platform Cred Client).

(** X21.  A configuration without spreadsheet identifier or without
    sheet name, the field absent or empty, is refused before anything is
    read: [create] fails with the error of the constructor, the one about
    the identifier when both are missing, and makes no call to the
    platform. *)
Theorem create_refuses_incomplete_config (c : Construction.GoogleSheetsConfig) :
  Construction.missing (Construction.cfg_spreadsheetId c) = true
  \/ Construction.missing (Construction.cfg_sheetName c) = true ->
  Construction.create pf c
  = (inl (if Construction.missing (Construction.cfg_spreadsheetId c)
          then Construction.SpreadsheetIdRequired
          else Construction.SheetNameRequired), []).
Proof.
  intros H. unfold Construction.create, Construction.constructor.
  destruct (Construction.missing (Construction.cfg_spreadsheetId c)); [done|].
  destruct H as [H|H]; [done|]. by rewrite H.
Qed.

(** X22.  With identifier and sheet name present, [create] first reads
    the credentials file, at the configured path or at
    [./credentials.json] when the path is absent or empty, and asks for a
    client only if that read resolves.  A failure is always the wrapped
    error of one of these two calls: the guard on an undefined path inside
    [initializeCredentials] never fires.  On success the instance carries
    the identifier and the sheet name of the configuration. *)
Theorem create_loads_credentials (c : Construction.GoogleSheetsConfig)
    (id name : string) :
  Construction.cfg_spreadsheetId c = Some id -> id <> "" ->
  Construction.cfg_sheetName c = Some name -> name <> "" ->
  let path := match Construction.cfg_credentialsPath c with
              | None | Some "" => "./credentials.json"
              | Some p => p
              end in
  match Construction.create pf c with
  | (inr (i, client), calls) =>
      calls = [Construction.ReadJson path; Construction.GetClient]
      /\ Construction.fields i = mkConfig id name
      /\ Construction.credentialsPath i = path
      /\ exists cred, Construction.file_json pf path = Resolved cred
                      /\ Construction.getClient pf cred = Resolved client
  | (inl e, calls) =>
      (exists why,
         e = Construction.LoadingCredentials (Construction.PlatformError why)
         /\ ((calls = [Construction.ReadJson path]
              /\ Construction.file_json pf path = Rejected why)
             \/ (calls = [Construction.ReadJson path; Construction.GetClient]
                 /\ exists cred, Construction.file_json pf path = Resolved cred
                                 /\ Construction.getClient pf cred = Rejected why)))
  end.
Proof.
  intros Hid Hidne Hname Hnamene path.
  assert (path <> "") as Hpath.
  { subst path. by destruct (Construction.cfg_credentialsPath c) as [[|]|]. }
  assert (Construction.constructor c
          = inr (Construction.mkInstance path (mkConfig id name))) as Hctor.
  { unfold Construction.constructor. rewrite Hid, Hname. simpl.
    destruct id as [|? ?]; [done|]. destruct name as [|? ?]; [done|]. simpl.
    subst path. by destruct (Construction.cfg_credentialsPath c) as [[|]|]. }
  unfold Construction.create. rewrite Hctor.
  unfold Construction.initializeCredentials. simpl.
  destruct (String.eqb_spec path ""); [done|].
  destruct (Construction.file_json pf path) as [cred|why] eqn:Hfile.
  - destruct (Construction.getClient pf cred) as [client|why] eqn:Hclient.
    + split_and!; [done..|]. by exists cred.
    + exists why. split; [done|]. right. split; [done|]. by exists cred.
  - exists why. split; [done|]. by left.
Qed.

End ConstructionFacts.

Lemma create_refuses_incomplete_config_witness :
  Construction.create
    (Construction.mkPlatform unit unit (fun _ => Resolved tt)
       (fun _ => Resolved tt))
    (Construction.mkGoogleSheetsConfig (Some "./key.json") (Some "") None)
  = (inl Construction.SpreadsheetIdRequired, []).
Proof.
  apply (create_refuses_incomplete_config
           (Construction.mkPlatform unit unit (fun _ => Resolved tt)
       (fun _ => Resolved tt))
           (Construction.mkGoogleSheetsConfig (Some "./key.json") (Some "") None)).
  by left.
Defined.

Lemma create_loads_credentials_witness :
  (Construction.create
     (Construction.mkPlatform unit unit
        (fun path => if String.eqb path "./credentials.json"
                     then Resolved tt else Rejected "ENOENT")
        (fun _ => Resolved tt))
     (Construction.mkGoogleSheetsConfig (Some "") (Some "19MoJAvrt26b")
        (Some "test"))).2
  = [Construction.ReadJson "./credentials.json"; Construction.GetClient].
Proof.
  pose proof (create_loads_credentials
                (Construction.mkPlatform unit unit
                   (fun path => if String.eqb path "./credentials.json"
                                then Resolved tt else Rejected "ENOENT")
                   (fun _ => Resolved tt))
                (Construction.mkGoogleSheetsConfig (Some "") (Some "19MoJAvrt26b")
                   (Some "test"))
                "19MoJAvrt26b" "test" eq_refl ltac:(discriminate)
                eq_refl ltac:(discriminate)) as H.
  vm_compute in H. vm_compute. exact (proj1 H).
Defined.

(** ** Values that are not strings, and the errors of the methods *)

(** X23.  The cell that [addRow] appends under a header is the value of
    [rowData] for that header only if JavaScript treats the value as true:
    a value such as the number 0, [false], [null] or [undefined] is
    appended as the empty string, like a key that was not supplied. *)
Theorem addRow_falsy_values {St Raw : Type} (svc : service St Raw)
    (self : config) (w : world St) (rowData : object)
    (values : option (list (list jsval))) (s1 s2 : St) :
  NoDup (keys rowData) ->
  invalidKey (keys rowData) = Ok None ->
  read_resolves svc self w values s1 ->
  on_values_update svc (spreadsheetId self) (SheetRange (sheetName self))
    "USER_ENTERED" (addRow_written values rowData) s1 = (Resolved tt, s2) ->
  exists row,
    last (trace (addRow svc self rowData w).2)
    = Some (values_append (spreadsheetId self) (SheetRange (sheetName self))
              "USER_ENTERED" [row])
    /\ forall j h v,
         addRow_headers values rowData !! j = Some h ->
         (ToString h, v) ∈ rowData ->
         row !! j = Some (if truthy v then v else JStr "").
Proof.
  intros Hnd Hk Hr Hu.
  exists (row_values (addRow_headers values rowData) rowData). split.
  - rewrite (addRow_run svc self w rowData values s1 Hk Hr). simpl. rewrite Hu.
    destruct (on_values_append _ _ _ _ _ _) as [[rng|why] s3]; simpl;
      by rewrite last_app.
  - intros j h v Hj Hin. unfold row_values.
    rewrite list_lookup_fmap, Hj. simpl.
    by rewrite (obj_get_elem rowData _ v Hnd Hin).
Qed.

Lemma addRow_falsy_values_witness :
  exists row,
    last (trace (addRow MemorySheet.memory Demo.self
                   [("Name", JStr "B"); ("Age", JNum 0)] Demo.header_only).2)
    = Some (values_append "19MoJAvrt26b" (SheetRange "test") "USER_ENTERED" [row])
    /\ row = [JStr "B"; JStr ""].
Proof.
  destruct (addRow_falsy_values MemorySheet.memory Demo.self Demo.header_only
              [("Name", JStr "B"); ("Age", JNum 0)]
              (Some [[JStr "Name"; JStr "Age"]])
              (remote Demo.header_only) (remote Demo.header_only))
    as (row & Hlast & _).
  - apply (bool_decide_unpack _). by vm_compute.
  - reflexivity.
  - reflexivity.
  - reflexivity.
  - exists row. split; [exact Hlast|].
    vm_compute in Hlast. by injection Hlast as ->.
Defined.

Section MethodErrors.
Context {St Raw : Type} (svc : service St Raw) (self : config).

Lemma invalidKey_error ks e : invalidKey ks = Err e -> e = TypeError.
Proof.
  induction ks as [|k ks IH]; simpl; [done|].
  destruct k as [|c s]; simpl; [congruence|]. by destruct (negb _).
Qed.

Lemma scan_error headers q rows index acc e :
  scan headers q rows index acc = Err e ->
  e = TypeError \/ exists key, e = InvalidKey key.
Proof.
  revert index acc. induction rows as [|row rows IH]; intros index acc;
    simpl; [done|].
  destruct (index =? 0)%Z; [apply IH|].
  destruct (invalidKey (keys q)) as [[key|]|e'] eqn:Hk.
  - intros [= <-]. right. by exists key.
  - apply IH.
  - intros [= <-]. left. by apply invalidKey_error in Hk.
Qed.

Lemma map_result_error {A B} (f : A -> result B) (l : list A) e :
  map_result f l = Err e -> exists x, x ∈ l /\ f x = Err e.
Proof.
  induction l as [|x l IH]; simpl; [done|].
  destruct (f x) as [y|e'] eqn:Hx.
  - destruct (map_result f l) as [ys|e'']; [done|].
    intros [= <-]. destruct (IH eq_refl) as (x' & Hin & Hx').
    exists x'. split; [apply elem_of_cons; by right|done].
  - intros [= <-]. exists x. split; [apply elem_of_cons; by left|done].
Qed.

(** X24.  Every failure of a public method is one error of that method
    around one cause.  The cause is a rejection by the service, a
    [TypeError], or one of the two checks; [addRow] never raises the error
    about position 1, and [deleteRow] raises neither check: its only
    causes are the rejection of its batched delete and the failure of
    [getSheetId], itself a rejection or a sheet that was not found. *)
Theorem method_errors (w : world St) :
  let plain e := e = TypeError \/ exists why, e = ServiceError why in
  (forall q e, (findRow svc self q w).1 = Err e ->
     exists c, e = Wrapped FindRow c
               /\ (plain c \/ c = HeaderRowIndex \/ exists key, c = InvalidKey key))
  /\ (forall rowData e, (addRow svc self rowData w).1 = Err e ->
        exists c, e = Wrapped AddRow c
                  /\ (plain c \/ exists key, c = InvalidKey key))
  /\ (forall r rowData e, (updateRow svc self r rowData w).1 = Err e ->
        exists c, e = Wrapped UpdateRow c
                  /\ (plain c \/ c = HeaderRowIndex
                      \/ exists key, c = InvalidKey key))
  /\ (forall r e, (deleteRow svc self r w).1 = Err e ->
        exists c, e = Wrapped DeleteRow c
                  /\ ((exists why, c = ServiceError why)
                      \/ exists c', c = Wrapped GetSheetId c' /\ plain c')).
Proof.
  intros plain. subst plain. split_and!.
  - intros q e. unfold_method. simpl.
    destruct (on_values_get _ _ _ _) as [[[[|headers rest]|]|why] s]; simpl;
      try done.
    + destruct q as [n|m]; simpl.
      * unfold find_by_number. destruct (n =? 1)%Z; simpl.
        { intros [= <-]. eexists. split; [done|]. right. by left. }
        destruct (n <=? _)%Z; simpl; [|done].
        destruct (rows_get _ _); simpl; [done|]. destruct headers; simpl; [done|].
        intros [= <-]. eexists. split; [done|]. left. by left.
      * destruct (scan _ _ _ _ _) as [res|e'] eqn:Hs; simpl; [done|].
        intros [= <-]. eexists. split; [done|].
        apply scan_error in Hs as [->|[key ->]].
        -- left. by left.
        -- right. right. by exists key.
    + intros [= <-]. eexists. split; [done|]. left. right. by exists why.
  - intros rowData e. unfold_method. simpl.
    destruct (on_values_get _ _ _ _) as [[values|why] s]; simpl.
    + destruct (invalidKey (keys rowData)) as [[key|]|e'] eqn:Hk; simpl.
      * intros [= <-]. eexists. split; [done|]. right. by exists key.
      * destruct (values ≫= head) as [old|]; simpl.
        -- destruct (on_values_update _ _ _ _ _ _) as [[[]|why] s2]; simpl.
           ++ destruct (on_values_append _ _ _ _ _ _) as [[rng|why] s3]; simpl.
              ** destruct (parse_row_index rng) eqn:Hp; simpl; [done|].
                 intros [= <-]. eexists. split; [done|]. left. left.
                 by apply parse_row_index_error in Hp.
              ** intros [= <-]. eexists. split; [done|]. left. right.
                 by exists why.
           ++ intros [= <-]. eexists. split; [done|]. left. right. by exists why.
        -- destruct (on_values_update _ _ _ _ _ _) as [[[]|why] s2]; simpl.
           ++ destruct (on_values_append _ _ _ _ _ _) as [[rng|why] s3]; simpl.
              ** destruct (parse_row_index rng) eqn:Hp; simpl; [done|].
                 intros [= <-]. eexists. split; [done|]. left. left.
                 by apply parse_row_index_error in Hp.
              ** intros [= <-]. eexists. split; [done|]. left. right.
                 by exists why.
           ++ intros [= <-]. eexists. split; [done|]. left. right. by exists why.
      * intros [= <-]. eexists. split; [done|]. left. left.
        by apply invalidKey_error in Hk.
    + intros [= <-]. eexists. split; [done|]. left. right. by exists why.
  - intros r rowData e. unfold_method. simpl. case_bool_decide; simpl.
    { intros [= <-]. eexists. split; [done|]. right. by left. }
    destruct (invalidKey (keys rowData)) as [[key|]|e'] eqn:Hk; simpl.
    + intros [= <-]. eexists. split; [done|]. right. right. by exists key.
    + destruct (on_values_get _ _ _ _) as [[[values|]|why] s]; simpl.
      * destruct (map_result _ _) as [reqs|e'] eqn:Hm; simpl.
        -- destruct (on_values_batchUpdate _ _ _ _ _) as [[raw|why] s']; simpl;
             [done|]. intros [= <-]. eexists. split; [done|]. left. right.
           by exists why.
        -- intros [= <-]. eexists. split; [done|]. left. left.
           apply map_result_error in Hm as (idx & _ & Hreq).
           unfold update_request in Hreq.
           destruct (patch _ _ _) eqn:Hp; [done|]. injection Hreq as <-.
           by apply patch_error in Hp.
      * intros [= <-]. eexists. split; [done|]. left. by left.
      * intros [= <-]. eexists. split; [done|]. left. right. by exists why.
    + intros [= <-]. eexists. split; [done|]. left. left.
      by apply invalidKey_error in Hk.
  - intros r e. unfold_method. simpl.
    destruct (on_spreadsheets_get _ _ _) as [[sheets|why] s]; simpl.
    + destruct (list_find _ sheets) as [[? [? id]]|]; simpl.
      * destruct (on_spreadsheets_batchUpdate _ _ _ _) as [[replies|why] s'];
          simpl; [done|]. intros [= <-]. eexists. split; [done|]. left.
        by exists why.
      * intros [= <-]. eexists. split; [done|]. right. eexists. split; [done|].
        by left.
    + intros [= <-]. eexists. split; [done|]. right. eexists. split; [done|].
      right. by exists why.
Qed.

End MethodErrors.

Lemma method_errors_witness :
  exists c, Wrapped DeleteRow (Wrapped GetSheetId TypeError) = Wrapped DeleteRow c
            /\ ((exists why, c = ServiceError why)
                \/ exists c', c = Wrapped GetSheetId c'
                              /\ (c' = TypeError \/ exists why, c' = ServiceError why)).
Proof.
  refine (proj2 (proj2 (proj2 (method_errors MemorySheet.memory
                                 (mkConfig "19MoJAvrt26b" "archive") Demo.people)))
            (Single 2) _ _).
  reflexivity.
Defined.
